(** * NK landscape: a shallow embedding of [nk-landscape.py]

    The class [NKLandscape] is embedded method by method.  Python integers are
    [Z], NumPy [float64] values are the kernel's binary64 floats, a method is a
    computation over the interpreter state (module namespace, random source,
    the attributes of [self]) that returns a value or raises. *)

From Stdlib Require Import String ZArith List Lia Bool Floats.
Import ListNotations.
Local Open Scope Z_scope.

(** ** Exceptions and results *)

(** The [ValueError]s of the program, one constructor per message; the last
    two are NumPy's (a negative array dimension, [randint] with [high <= 0]). *)
Inductive value_error : Type :=
| N_must_be_provided
| K_must_be_provided
| K_must_be_less_than_N
| matrix_shape_not_N_N
| matrix_not_binary
| matrix_diagonal_not_ones
| matrix_K0_not_identity
| matrix_row_sums_not_K
| num_must_be_specified
| negative_dimensions
| high_not_positive.

Inductive exn : Type :=
| ValueError (e : value_error)
| NameError (name : string)
| AttributeError (name : string)
| IndexError
| TypeError
| OverflowError.

Inductive result (A : Type) : Type :=
| Ok (a : A)
| Raise (e : exn).
Arguments Ok {A} a.
Arguments Raise {A} e.

Definition is_ValueError {A} (r : result A) : Prop :=
  exists e, r = Raise (ValueError e).

Definition is_Ok {A} (r : result A) : Prop :=
  exists a, r = Ok a.

(** ** Python built-ins *)

(** [range(n)]: empty when [n <= 0]. *)
Definition range (n : Z) : list Z := map Z.of_nat (seq 0 (Z.to_nat n)).

Definition len {A} (l : list A) : Z := Z.of_nat (length l).

(** [l[i]] on a one-dimensional array: a negative index counts from the end,
    an index outside [-len, len) raises [IndexError]. *)
Definition getitem {A} (l : list A) (i : Z) : result A :=
  let j := if i <? 0 then i + len l else i in
  if (0 <=? j) && (j <? len l) then
    match nth_error l (Z.to_nat j) with
    | Some a => Ok a
    | None => Raise IndexError
    end
  else Raise IndexError.

(** The value of [b ** e] on integers: an [int] for [e >= 0], a [float]
    otherwise (only its being a float matters below). *)
Inductive pynum : Type :=
| PyInt (z : Z)
| PyFloat.

Definition py_pow (b e : Z) : pynum :=
  if 0 <=? e then PyInt (b ^ e) else PyFloat.

Definition lsum (l : list Z) : Z := fold_right Z.add 0 l.

Fixpoint zip_with {A B C} (f : A -> B -> C) (l : list A) (m : list B) : list C :=
  match l, m with
  | a :: l', b :: m' => f a b :: zip_with f l' m'
  | _, _ => []
  end.

Fixpoint forallb2 {A B} (p : A -> B -> bool) (l : list A) (m : list B) : bool :=
  match l, m with
  | [], [] => true
  | a :: l', b :: m' => p a b && forallb2 p l' m'
  | _, _ => false
  end.

(** ** The random source

    NumPy's generator is an external collaborator: a state and one draw of
    each kind, with the contract of [randint(high)] (a value in [[0, high)]). *)
Class RandomSource : Type := {
  rng : Type;
  draw_randint : Z -> rng -> Z * rng;
  draw_uniform : float -> float -> rng -> float * rng;
  draw_randint_range :
    forall high s, 0 < high -> 0 <= fst (draw_randint high s) < high
}.

Fixpoint draw_list {S A} (draw : S -> A * S) (n : nat) (s : S) : list A * S :=
  match n with
  | O => ([], s)
  | S n' =>
      let (x, s1) := draw s in
      let (xs, s2) := draw_list draw n' s1 in
      (x :: xs, s2)
  end.

(** ** NumPy arrays

    A two-dimensional array carries its shape (an array of shape [(0, c)] has
    no row but still [c] columns); a one-dimensional array is a list.  The
    integer matrices hold [Z]: the sums taken of them by the program are
    sums of at most [N * N] entries already known to be 0 or 1, or are
    compared after the binary check, so no 64-bit wrap-around occurs on the
    paths modelled.  The integer array of a solution carries its element
    type, and the arithmetic on its entries is the fixed-width arithmetic of
    NumPy 2: it wraps around or raises [OverflowError]. *)
Module np.

Record ndarray (A : Type) : Type := mk_ndarray {
  shape : Z * Z;
  rows : list (list A)
}.
Arguments mk_ndarray {A} shape rows.
Arguments shape {A} n.
Arguments rows {A} n.

(** What every array built by NumPy satisfies. *)
Definition wf {A} (a : ndarray A) : Prop :=
  len (rows a) = fst (shape a) /\
  0 <= snd (shape a) /\
  Forall (fun r => len r = snd (shape a)) (rows a).

Definition shape_eqb (s t : Z * Z) : bool :=
  (fst s =? fst t) && (snd s =? snd t).

Definition from_function {A} (r c : Z) (f : Z -> Z -> A) : ndarray A :=
  mk_ndarray (Z.max 0 r, Z.max 0 c)
             (map (fun i => map (fun j => f i j) (range c)) (range r)).

(** [np.eye(n, k=k)]: ones on the [k]-th diagonal.  NumPy returns floats
    0.0 and 1.0; they and the sums of them formed by the program are small
    integers, exact in binary64, and are held here as [Z]. *)
Definition eye (n k : Z) : result (ndarray Z) :=
  if n <? 0 then Raise (ValueError negative_dimensions)
  else Ok (from_function n n (fun i j => if j =? i + k then 1 else 0)).

Definition identity (n : Z) : result (ndarray Z) := eye n 0.

(** [a + b] for two arrays of the same shape. *)
Definition add (a b : ndarray Z) : ndarray Z :=
  mk_ndarray (shape a) (zip_with (zip_with Z.add) (rows a) (rows b)).

Definition map_array {A B} (f : A -> B) (a : ndarray A) : ndarray B :=
  mk_ndarray (shape a) (map (map f) (rows a)).

(** [a.astype(bool)] on an integer array. *)
Definition astype_bool (a : ndarray Z) : ndarray bool :=
  map_array (fun x => negb (x =? 0)) a.

(** [np.array_equal] of an integer array and a boolean array: [True] is
    1 and [False] is 0 in the comparison. *)
Definition array_equal_int_bool (a : ndarray Z) (b : ndarray bool) : bool :=
  shape_eqb (shape a) (shape b) &&
  forallb2 (forallb2 (fun x y => x =? Z.b2z y)) (rows a) (rows b).

(** [np.array_equal] of two one-dimensional integer arrays. *)
Definition array_equal (a b : list Z) : bool :=
  forallb2 Z.eqb a b.

Definition diagonal (a : ndarray Z) : list Z :=
  map (fun i => nth (Z.to_nat i) (nth (Z.to_nat i) (rows a) []) 0)
      (range (Z.min (fst (shape a)) (snd (shape a)))).

Definition trace (a : ndarray Z) : Z := lsum (diagonal a).

(** [a.sum(axis=1)] and [a.sum()]. *)
Definition sum_axis1 (a : ndarray Z) : list Z := map lsum (rows a).

Definition sum (a : ndarray Z) : Z := lsum (sum_axis1 a).

(** [np.full((1, n), v)[0]]. *)
Definition full_row (n v : Z) : list Z := repeat v (Z.to_nat n).

(** [np.argwhere(m).T[0]] on a one-dimensional boolean array: the indices
    of the true entries, ascending. *)
Definition argwhere (m : list bool) : list Z :=
  filter (fun j => nth (Z.to_nat j) m false) (range (len m)).

(** [np.roll(a, shift)] on a one-dimensional array. *)
Definition roll {A} (a : list A) (shift : Z) : list A :=
  match a with
  | [] => []
  | _ =>
      let offset := shift mod len a in
      skipn (Z.to_nat (len a - offset)) a ++ firstn (Z.to_nat (len a - offset)) a
  end.

(** [a[indices]]: gathering with an integer index array. *)
Fixpoint take {A} (a : list A) (indices : list Z) : result (list A) :=
  match indices with
  | [] => Ok []
  | i :: rest =>
      match getitem a i with
      | Raise e => Raise e
      | Ok x =>
          match take a rest with
          | Raise e => Raise e
          | Ok xs => Ok (x :: xs)
          end
      end
  end.

(** [a[i, j]] on a two-dimensional array. *)
Definition getitem2 {A} (a : ndarray A) (i j : Z) : result A :=
  match getitem (rows a) i with
  | Raise e => Raise e
  | Ok r => getitem r j
  end.

(** The integer element types.  A one-dimensional integer array as a caller
    passes it carries its element type, which decides the arithmetic on its
    entries; the entries of an array lie within the bounds of its type. *)
Inductive dtype : Type :=
| int8 | int16 | int32 | int64
| uint8 | uint16 | uint32 | uint64.

Definition dtype_bits (dt : dtype) : Z :=
  match dt with
  | int8 | uint8 => 8
  | int16 | uint16 => 16
  | int32 | uint32 => 32
  | int64 | uint64 => 64
  end.

Definition dtype_signed (dt : dtype) : bool :=
  match dt with
  | int8 | int16 | int32 | int64 => true
  | uint8 | uint16 | uint32 | uint64 => false
  end.

Definition dtype_min (dt : dtype) : Z :=
  if dtype_signed dt then - 2 ^ (dtype_bits dt - 1) else 0.

Definition dtype_max (dt : dtype) : Z :=
  dtype_min dt + 2 ^ dtype_bits dt - 1.

Definition in_range (dt : dtype) (z : Z) : bool :=
  (dtype_min dt <=? z) && (z <=? dtype_max dt).

(** The value kept of a result that left the range: arithmetic modulo
    [2^bits]. *)
Definition wrap (dt : dtype) (z : Z) : Z :=
  (z - dtype_min dt) mod 2 ^ dtype_bits dt + dtype_min dt.

Record int_array : Type := mk_int_array {
  dtype_of : dtype;
  items : list Z
}.

(** The entries of an array lie within the bounds of its element type. *)
Definition in_bounds (a : int_array) : Prop :=
  Forall (fun x => in_range (dtype_of a) x = true) (items a).

(** [a[indices]] keeps the element type. *)
Definition take_array (a : int_array) (indices : list Z) : result int_array :=
  match take (items a) indices with
  | Ok xs => Ok (mk_int_array (dtype_of a) xs)
  | Raise e => Raise e
  end.

(** [x * p] for a scalar [x] of type [dt] and a Python integer [p] (NumPy 2):
    [p] is converted to [dt] and [OverflowError] is raised when it is out of
    bounds; the product of the two scalars wraps around. *)
Definition scalar_mul_pyint (dt : dtype) (x p : Z) : result Z :=
  if in_range dt p then Ok (wrap dt (x * p)) else Raise OverflowError.

(** [a + b] for two scalars of type [dt]: the sum wraps around.  It is also
    [0 + b] for the Python integer 0, which is converted to [dt]. *)
Definition scalar_add (dt : dtype) (a b : Z) : Z := wrap dt (a + b).

(** [float64 -> int64] as [astype(int)] does it: truncation toward zero.
    A value that is not finite or does not fit is converted to the least
    [int64], as the x86-64 conversion instruction does. *)
Definition trunc_float (f : float) : Z :=
  let v :=
    match Prim2SF f with
    | S754_finite s m e =>
        let mag := if 0 <=? e then Z.pos m * 2 ^ e else Z.pos m / 2 ^ (- e) in
        if s then - mag else mag
    | S754_zero _ => 0
    | _ => - 2 ^ 63
    end in
  if (- 2 ^ 63 <=? v) && (v <? 2 ^ 63) then v else - 2 ^ 63.

(** [np.random]: an array is filled row by row, one draw per entry. *)
Module random.

Definition randint `{RandomSource} (high : Z) (size : Z * Z) (s : rng)
  : result (ndarray Z) * rng :=
  if high <=? 0 then (Raise (ValueError high_not_positive), s)
  else if (fst size <? 0) || (snd size <? 0)
  then (Raise (ValueError negative_dimensions), s)
  else
    let (rs, s') :=
      draw_list (draw_list (draw_randint high) (Z.to_nat (snd size)))
                (Z.to_nat (fst size)) s in
    (Ok (mk_ndarray size rs), s').

(** The second dimension is the value of a Python expression and may be
    a float, which NumPy refuses as a dimension. *)
Definition uniform `{RandomSource} (low high : float) (size : Z * pynum) (s : rng)
  : result (ndarray float) * rng :=
  match snd size with
  | PyFloat => (Raise TypeError, s)
  | PyInt c =>
      if (fst size <? 0) || (c <? 0)
      then (Raise (ValueError negative_dimensions), s)
      else
        let (rs, s') :=
          draw_list (draw_list (draw_uniform low high) (Z.to_nat c))
                    (Z.to_nat (fst size)) s in
        (Ok (mk_ndarray (fst size, c) rs), s')
  end.

End random.

End np.

(** An array as a caller may pass it: of integers, of floats or of booleans. *)
Inductive array_arg : Type :=
| IntArray (a : np.ndarray Z)
| FloatArray (a : np.ndarray float)
| BoolArray (a : np.ndarray bool).

(** [a.astype(int)]. *)
Definition astype_int (a : array_arg) : np.ndarray Z :=
  match a with
  | IntArray a => a
  | FloatArray a => np.map_array np.trunc_float a
  | BoolArray a => np.map_array Z.b2z a
  end.

(** ** Interpreter state and the method monad *)

(** The attributes of an instance; [None] is an attribute not assigned yet.
    (The attributes [N] and [K] are prefixed: [N] is a type of the library.) *)
Record object : Type := mk_object {
  self_N : option Z;
  self_K : option Z;
  self_dependency_matrix : option (np.ndarray Z);
  self_fitness_mapping : option (np.ndarray float)
}.

Definition empty_object : object := mk_object None None None None.

(** The integer bindings of the module namespace.  The module itself binds
    only [np] and [NKLandscape]: in the program as it stands this is []. *)
Definition namespace : Type := list (string * Z).

Fixpoint lookup_name (name : string) (g : namespace) : option Z :=
  match g with
  | [] => None
  | (x, v) :: g' => if String.eqb x name then Some v else lookup_name name g'
  end.

Definition module_namespace : namespace := [].

Section Methods.

Context {RS : RandomSource}.

Record world : Type := mk_world {
  globals : namespace;
  rng_state : rng;
  self : object
}.

Definition M (A : Type) : Type := world -> result A * world.

Definition ret {A} (a : A) : M A := fun w => (Ok a, w).

Definition raise {A} (e : exn) : M A := fun w => (Raise e, w).

Definition bind {A B} (m : M A) (f : A -> M B) : M B :=
  fun w =>
    match m w with
    | (Ok a, w') => f a w'
    | (Raise e, w') => (Raise e, w')
    end.

Definition lift {A} (r : result A) : M A := fun w => (r, w).

(** [if b: raise e]. *)
Definition raise_if (b : bool) (e : exn) : M unit :=
  if b then raise e else ret tt.

Definition getattr {A} (name : string) (field : object -> option A) : M A :=
  fun w =>
    match field (self w) with
    | Some a => (Ok a, w)
    | None => (Raise (AttributeError name), w)
    end.

Definition update_self (f : object -> object) : M unit :=
  fun w => (Ok tt, mk_world (globals w) (rng_state w) (f (self w))).

Definition setattr_N (n : Z) : M unit :=
  update_self (fun o => mk_object (Some n) (self_K o)
                          (self_dependency_matrix o) (self_fitness_mapping o)).

Definition setattr_K (k : Z) : M unit :=
  update_self (fun o => mk_object (self_N o) (Some k)
                          (self_dependency_matrix o) (self_fitness_mapping o)).

Definition setattr_dependency_matrix (a : np.ndarray Z) : M unit :=
  update_self (fun o => mk_object (self_N o) (self_K o)
                          (Some a) (self_fitness_mapping o)).

Definition setattr_fitness_mapping (a : np.ndarray float) : M unit :=
  update_self (fun o => mk_object (self_N o) (self_K o)
                          (self_dependency_matrix o) (Some a)).

(** Reading a free name of a method body: the module namespace. *)
Definition getglobal (name : string) : M Z :=
  fun w =>
    match lookup_name name (globals w) with
    | Some v => (Ok v, w)
    | None => (Raise (NameError name), w)
    end.

(** A call of the random source: it advances the generator state. *)
Definition with_rng {A} (f : rng -> result A * rng) : M A :=
  fun w =>
    let (r, s) := f (rng_state w) in
    (r, mk_world (globals w) s (self w)).

(** [for x in l: acc = body(acc, x)]. *)
Fixpoint for_each {A B} (l : list A) (body : B -> A -> M B) (acc : B) : M B :=
  match l with
  | [] => ret acc
  | x :: l' => bind (body acc x) (for_each l' body)
  end.

End Methods.

Declare Scope method_scope.
Delimit Scope method_scope with method.
Notation "x <- m ;; k" := (bind m (fun x => k))
  (at level 61, m at next level, right associativity) : method_scope.
Notation "m ;; k" := (bind m (fun _ => k))
  (at level 61, right associativity) : method_scope.

(** ** The class [NKLandscape] *)

Section NKLandscape.

Context {RS : RandomSource}.
Local Open Scope method_scope.

Definition get_N : M Z := getattr "N" self_N.
Definition get_K : M Z := getattr "K" self_K.
Definition get_dependency_matrix : M (np.ndarray Z) :=
  getattr "dependency_matrix" self_dependency_matrix.
Definition get_fitness_mapping : M (np.ndarray float) :=
  getattr "fitness_mapping" self_fitness_mapping.

(** The body of the loop of [_construct_sequential_dependency_matrix]. *)
Definition add_offset (n : Z) (dependency_matrix : np.ndarray Z) (offset : Z)
  : M (np.ndarray Z) :=
  upper <- lift (np.eye n (offset + 1)) ;;
  lower <- lift (np.eye n (- (n - (offset + 1)))) ;;
  ret (np.add dependency_matrix (np.add upper lower)).

Definition _construct_sequential_dependency_matrix : M (np.ndarray Z) :=
  n <- get_N ;;
  dependency_matrix <- lift (np.identity n) ;;
  k <- get_K ;;
  if k >? 0 then
    k <- get_K ;;
    for_each (range k) (add_offset n) dependency_matrix
  else ret dependency_matrix.

(** [self] is not read: a function of the argument alone.  The argument is
    an integer array: [binary[...]] is a scalar of its element type, [2**i]
    a Python integer, and [decimal] is the Python integer 0 before the first
    round and a scalar afterwards. *)
Definition _binary_to_decimal (binary : np.int_array) : result Z :=
  fold_left
    (fun decimal i =>
       match decimal with
       | Raise e => Raise e
       | Ok decimal =>
           match np.scalar_mul_pyint (np.dtype_of binary)
                   (nth (Z.to_nat (len (np.items binary) - i - 1))
                        (np.items binary) 0)
                   (2 ^ i) with
           | Raise e => Raise e
           | Ok term => Ok (np.scalar_add (np.dtype_of binary) decimal term)
           end
       end)
    (range (len (np.items binary))) (Ok 0).

(** The free name [K] of the fourth test is looked up in the module
    namespace; [and] evaluates it before its right operand. *)
Definition _check_dependency_matrix : M unit :=
  dm <- get_dependency_matrix ;;
  n <- get_N ;;
  raise_if (negb (np.shape_eqb (np.shape dm) (n, n)))
           (ValueError matrix_shape_not_N_N) ;;
  raise_if (negb (np.array_equal_int_bool dm (np.astype_bool dm)))
           (ValueError matrix_not_binary) ;;
  raise_if (negb (np.trace dm =? n))
           (ValueError matrix_diagonal_not_ones) ;;
  global_K <- getglobal "K" ;;
  raise_if ((global_K =? 0) && negb (np.sum dm =? n))
           (ValueError matrix_K0_not_identity) ;;
  k <- get_K ;;
  raise_if (negb (np.array_equal (np.sum_axis1 dm) (np.full_row n (k + 1))))
           (ValueError matrix_row_sums_not_K).

Definition __init__ (N K : option Z) (dependency_matrix : option array_arg)
           (fitness_mapping : option (np.ndarray float)) : M unit :=
  n <- match N with
       | None => raise (ValueError N_must_be_provided)
       | Some n => ret n
       end ;;
  setattr_N n ;;
  k <- match K with
       | None => raise (ValueError K_must_be_provided)
       | Some k => ret k
       end ;;
  n <- get_N ;;
  raise_if (k >=? n) (ValueError K_must_be_less_than_N) ;;
  setattr_K k ;;
  match dependency_matrix with
  | None =>
      dm <- _construct_sequential_dependency_matrix ;;
      setattr_dependency_matrix dm
  | Some a =>
      setattr_dependency_matrix (astype_int a) ;;
      _check_dependency_matrix
  end ;;
  match fitness_mapping with
  | None =>
      n <- get_N ;;
      k <- get_K ;;
      fm <- with_rng (np.random.uniform (-1) 1 (n, py_pow 2 (k + 1))) ;;
      setattr_fitness_mapping fm
  | Some fm => setattr_fitness_mapping fm
  end.

Definition generate_solutions (num : option Z) : M (np.ndarray Z) :=
  match num with
  | None => raise (ValueError num_must_be_specified)
  | Some num =>
      n <- get_N ;;
      with_rng (np.random.randint 2 (num, n))
  end.

(** The loop body of [calculate_fitness], statement by statement: the
    indices of the ones of row [i], ... *)
Definition dependency_indicies (i : Z) : M (list Z) :=
  dm <- get_dependency_matrix ;;
  row <- lift (getitem (np.rows dm) i) ;;
  ret (np.argwhere (map (fun x => x =? 1) row)).

(** ... rolled by minus the position of [i] among them, ... *)
Definition rolled_dependency_indicies (i : Z) : M (list Z) :=
  indicies <- dependency_indicies i ;;
  position <- lift (getitem (np.argwhere (map (fun j => j =? i) indicies)) 0) ;;
  ret (np.roll indicies (- position)).

(** ... the index [decimal] read off the solution at these places, ... *)
Definition row_decimal (solution : np.int_array) (i : Z) : M Z :=
  rolled <- rolled_dependency_indicies i ;;
  substring <- lift (np.take_array solution rolled) ;;
  lift (_binary_to_decimal substring).

(** ... and the update of the running total with the entry looked up. *)
Definition add_contribution (solution : np.int_array) (fitness : float) (i : Z)
  : M float :=
  decimal <- row_decimal solution i ;;
  fm <- get_fitness_mapping ;;
  v <- lift (np.getitem2 fm i decimal) ;;
  ret (fitness + v)%float.

Definition calculate_fitness (solution : np.int_array) : M float :=
  n <- get_N ;;
  for_each (range n) (add_contribution solution) 0%float.

(** The setter is modelled on integer arrays. *)
Definition set_dependency_matrix (dependency_matrix : np.ndarray Z) : M unit :=
  setattr_dependency_matrix dependency_matrix ;;
  _check_dependency_matrix.


(** [NKLandscape(N, K, dependency_matrix, fitness_mapping)]: [__init__] run
    on a fresh instance; the instance is returned when it does not raise. *)
Definition construct (g : namespace) (N K : option Z)
           (dependency_matrix : option array_arg)
           (fitness_mapping : option (np.ndarray float)) (s : rng)
  : result object * rng :=
  let (r, w) := __init__ N K dependency_matrix fitness_mapping
                         (mk_world g s empty_object) in
  (match r with Ok _ => Ok (self w) | Raise e => Raise e end, rng_state w).

End NKLandscape.

(** A deterministic random source used to run the program on examples. *)
#[local] Instance counter_source : RandomSource := {|
  rng := Z;
  draw_randint high s := (s mod high, s + 1);
  draw_uniform low high s := (low, s + 1);
  draw_randint_range := fun high s H => Z.mod_pos_bound s high H
|}.

(** ** The data model and the evaluation as the specification words them *)

Definition binary (x : Z) : Prop := x = 0 \/ x = 1.

(** The invariants of a dependency matrix of a landscape [(N, K)]. *)
Record valid_dependency_matrix (n k : Z) (dm : np.ndarray Z) : Prop := {
  dm_wf : np.wf dm;
  dm_shape : np.shape dm = (n, n);
  dm_binary : Forall (Forall binary) (np.rows dm);
  dm_trace : np.trace dm = n;
  dm_row_sums : Forall (fun r => lsum r = k + 1) (np.rows dm)
}.

Record valid_landscape (n k : Z) (dm : np.ndarray Z) (fm : np.ndarray float) : Prop := {
  vl_range : 0 <= k < n;
  vl_matrix : valid_dependency_matrix n k dm;
  vl_mapping_wf : np.wf fm;
  vl_mapping_shape : np.shape fm = (n, 2 ^ (k + 1))
}.

Definition landscape (n k : Z) (dm : np.ndarray Z) (fm : np.ndarray float) : object :=
  mk_object (Some n) (Some k) (Some dm) (Some fm).

(** The column indices at which a row is 1, ascending, counted from [j]. *)
Fixpoint ones_from (j : Z) (row : list Z) : list Z :=
  match row with
  | [] => []
  | x :: row' =>
      if x =? 1 then j :: ones_from (j + 1) row' else ones_from (j + 1) row'
  end.

(** Rotating a list to the left, one place at a time, until [i] is first. *)
Fixpoint rotate_left_until (fuel : nat) (i : Z) (l : list Z) : list Z :=
  match fuel, l with
  | S fuel', x :: l' =>
      if x =? i then l else rotate_left_until fuel' i (l' ++ [x])
  | _, _ => l
  end.

Definition rotate_to_front (i : Z) (l : list Z) : list Z :=
  rotate_left_until (length l) i l.

(** The unsigned value of a bit string, most significant bit first. *)
Definition msb_first_value (bits : list Z) : Z :=
  fold_left (fun acc b => 2 * acc + b) bits 0.

(** The sum that [_binary_to_decimal] forms, in unbounded integers: the
    entry at distance [i] from the end weighs [2^i]. *)
Definition positional_value (binary : list Z) : Z :=
  fold_left
    (fun decimal i =>
       decimal + nth (Z.to_nat (len binary - i - 1)) binary 0 * 2 ^ i)
    (range (len binary)) 0.

(** An element type holds the numbers of [m] bits: [2^(m-1)], the greatest
    weight met, is within its bounds. *)
Definition holds_bits (dt : np.dtype) (m : Z) : Prop :=
  2 ^ (m - 1) <= np.dtype_max dt.

(** The ordered dependency pattern of position [i] and its value [d_i]. *)
Definition spec_pattern (dm : np.ndarray Z) (i : Z) : list Z :=
  rotate_to_front i (ones_from 0 (nth (Z.to_nat i) (np.rows dm) [])).

Definition spec_decimal (dm : np.ndarray Z) (solution : list Z) (i : Z) : Z :=
  msb_first_value (map (fun j => nth (Z.to_nat j) solution 0) (spec_pattern dm i)).

(** A two-dimensional array literal. *)
Definition array2 {A} (l : list (list A)) : np.ndarray A :=
  np.mk_ndarray (len l, len (hd [] l)) l.

(** The entries of the sequential matrix in closed form: what one offset of
    the loop adds at [(i, j)], and the entry after the offsets of [range k]. *)
Definition offset_entry (n i j offset : Z) : Z :=
  (if j =? i + (offset + 1) then 1 else 0) +
  (if j =? i + - (n - (offset + 1)) then 1 else 0).

Definition sequential_entry (n k i j : Z) : Z :=
  (if j =? i + 0 then 1 else 0) + lsum (map (offset_entry n i j) (range k)).

Definition sequential_matrix (n k : Z) : np.ndarray Z :=
  np.from_function n n (sequential_entry n k).

(** ** Frame properties of a method *)

(** A computation that never changes the state. *)
Definition leaves_state {RS : RandomSource} {A} (m : M A) : Prop :=
  forall w, snd (m w) = w.

(** Two states that give [calculate_fitness] the same inputs. *)
Definition same_inputs {RS : RandomSource} (w w' : world) : Prop :=
  self_N (self w) = self_N (self w') /\
  self_dependency_matrix (self w) = self_dependency_matrix (self w') /\
  self_fitness_mapping (self w) = self_fitness_mapping (self w').

(** A computation that leaves the state as it is and whose outcome depends
    on these inputs only. *)
Definition evaluation_only {RS : RandomSource} {A} (m : M A) : Prop :=
  forall w, snd (m w) = w /\ forall w', same_inputs w w' -> fst (m w) = fst (m w').

(** * Proofs *)

(** Running a method on a state: the operations of the monad are unfolded and
    the state is threaded through; the tests of the program stay as written. *)
Ltac run :=
  unfold get_N, get_K, get_dependency_matrix, get_fitness_mapping,
    setattr_N, setattr_K, setattr_dependency_matrix, setattr_fitness_mapping,
    bind, ret, raise, lift, raise_if, getattr, getglobal, update_self, with_rng;
  cbn -[np.shape_eqb np.array_equal_int_bool np.trace np.sum np.array_equal
        np.sum_axis1 np.full_row np.argwhere np.roll np.take np.getitem2
        np.identity np.eye np.random.uniform np.random.randint
        np.take_array np.wrap np.in_range np.dtype_max np.dtype_min
        getitem range _binary_to_decimal lookup_name for_each
        _construct_sequential_dependency_matrix _check_dependency_matrix
        dependency_indicies rolled_dependency_indicies row_decimal add_contribution
        Z.geb Z.gtb Z.eqb Z.ltb Z.leb Z.pow Z.add Z.sub Z.opp Z.to_nat].

(** Lists of bits given explicitly. *)
Ltac solve_bits :=
  repeat first [apply Forall_nil | apply Forall_cons];
  try (unfold binary; lia); try reflexivity.

(** ** Ranges, indexing and sums *)

Lemma range_In (n i : Z) : In i (range n) <-> 0 <= i < n.
Proof.
  unfold range. rewrite in_map_iff. split.
  - intros [x [<- Hx]]. apply in_seq in Hx. lia.
  - intros H. exists (Z.to_nat i). split; [lia|]. apply in_seq. lia.
Qed.

Lemma range_length (n : Z) : len (range n) = Z.max 0 n.
Proof. unfold len, range. rewrite length_map, length_seq. lia. Qed.

Lemma range_nonpos (n : Z) : n <= 0 -> range n = [].
Proof. intros H. unfold range. replace (Z.to_nat n) with O by lia. reflexivity. Qed.

Lemma range_snoc (n : Z) : 0 <= n -> range (n + 1) = range n ++ [n].
Proof.
  intros H. unfold range.
  replace (Z.to_nat (n + 1)) with (Z.to_nat n + 1)%nat by lia.
  rewrite seq_app, map_app. cbn. f_equal. f_equal. lia.
Qed.

Lemma range_cons (n : nat) :
  range (Z.of_nat (S n)) = 0 :: map (Z.add 1) (range (Z.of_nat n)).
Proof.
  unfold range. rewrite !Nat2Z.id. cbn [seq map]. f_equal.
  rewrite <- seq_shift, !map_map. apply map_ext. intros a. lia.
Qed.

Lemma nth_range {A} (f : Z -> A) (n i : Z) (d : A) :
  0 <= i < n -> nth (Z.to_nat i) (map f (range n)) d = f i.
Proof.
  intros H. unfold range. rewrite map_map.
  rewrite (nth_indep _ d (f (Z.of_nat 0))) by (rewrite length_map, length_seq; lia).
  rewrite (map_nth (fun x => f (Z.of_nat x))), seq_nth by lia.
  f_equal. lia.
Qed.

Lemma len_nonneg {A} (l : list A) : 0 <= len l.
Proof. unfold len. lia. Qed.

Lemma len_cons {A} (a : A) (l : list A) : len (a :: l) = len l + 1.
Proof. unfold len. cbn [length]. lia. Qed.

Lemma len_app {A} (l m : list A) : len (l ++ m) = len l + len m.
Proof. unfold len. rewrite length_app. lia. Qed.

Lemma len_map {A B} (f : A -> B) (l : list A) : len (map f l) = len l.
Proof. unfold len. now rewrite length_map. Qed.

Lemma getitem_ok {A} (l : list A) (i : Z) (d : A) :
  0 <= i < len l -> getitem l i = Ok (nth (Z.to_nat i) l d).
Proof.
  intros H. unfold getitem.
  replace (i <? 0) with false by lia.
  replace ((0 <=? i) && (i <? len l)) with true by lia.
  destruct (nth_error l (Z.to_nat i)) eqn:E.
  - f_equal. symmetry. now apply nth_error_nth.
  - apply nth_error_None in E. unfold len in H. lia.
Qed.

Lemma getitem_map {A B} (f : A -> B) (l : list A) (i : Z) :
  getitem (map f l) i =
  match getitem l i with Ok a => Ok (f a) | Raise e => Raise e end.
Proof.
  unfold getitem. rewrite len_map.
  destruct (if i <? 0 then i + len l else i) as [|p|p]; cbn [Z.leb Z.compare andb];
    try reflexivity;
    (destruct (_ <? _); cbn [andb]; [|reflexivity]);
    rewrite nth_error_map; destruct (nth_error l _); reflexivity.
Qed.

Lemma lsum_cons (a : Z) (l : list Z) : lsum (a :: l) = a + lsum l.
Proof. reflexivity. Qed.

Lemma lsum_app (l m : list Z) : lsum (l ++ m) = lsum l + lsum m.
Proof.
  induction l as [|a l IH]; [reflexivity|].
  cbn [app]. rewrite !lsum_cons, IH. lia.
Qed.

Lemma lsum_map_add {A} (f g : A -> Z) (l : list A) :
  lsum (map (fun x => f x + g x) l) = lsum (map f l) + lsum (map g l).
Proof.
  induction l as [|a l IH]; [reflexivity|].
  cbn [map]. rewrite !lsum_cons, IH. lia.
Qed.

Lemma lsum_map_const {A} (c : Z) (l : list A) :
  lsum (map (fun _ => c) l) = c * len l.
Proof.
  induction l as [|a l IH]; [cbn; lia|].
  cbn [map]. rewrite lsum_cons, IH, len_cons. lia.
Qed.

Lemma lsum_binary_bounds (l : list Z) :
  Forall binary l -> 0 <= lsum l <= len l.
Proof.
  induction 1 as [|x l Hx _ IH]; [cbn; lia|].
  rewrite len_cons, lsum_cons. destruct Hx; lia.
Qed.

(** A list of bits whose sum is its length holds only ones. *)
Lemma lsum_binary_full (l : list Z) :
  Forall binary l -> lsum l = len l -> Forall (fun x => x = 1) l.
Proof.
  induction 1 as [|x l Hx Hl IH]; intros Hs; [constructor|].
  rewrite len_cons, lsum_cons in Hs.
  pose proof (lsum_binary_bounds l Hl).
  constructor; [|apply IH]; destruct Hx; lia.
Qed.

(** The sum over [range n] of the indicator of one column. *)
Lemma lsum_indicator (n c : Z) :
  lsum (map (fun j => if j =? c then 1 else 0) (range n)) =
  if (0 <=? c) && (c <? n) then 1 else 0.
Proof.
  destruct (Z.le_gt_cases n 0) as [Hn|Hn].
  - rewrite range_nonpos by assumption.
    destruct (0 <=? c) eqn:E1, (c <? n) eqn:E2; cbn; lia.
  - assert (G : forall m : nat,
               lsum (map (fun j => if j =? c then 1 else 0) (range (Z.of_nat m))) =
               if (0 <=? c) && (c <? Z.of_nat m) then 1 else 0).
    { induction m as [|m IH].
      - change (Z.of_nat 0) with 0.
        destruct (0 <=? c) eqn:E1, (c <? 0) eqn:E2; cbn; lia.
      - replace (Z.of_nat (S m)) with (Z.of_nat m + 1) by lia.
        rewrite range_snoc, map_app, lsum_app, IH by lia.
        cbn [map]. rewrite lsum_cons. change (lsum []) with 0.
        destruct (Z.eqb_spec (Z.of_nat m) c), (Z.leb_spec 0 c),
          (Z.ltb_spec c (Z.of_nat m)), (Z.ltb_spec c (Z.of_nat m + 1));
          cbn [andb]; lia. }
    specialize (G (Z.to_nat n)). rewrite Z2Nat.id in G by lia. exact G.
Qed.

(** ** Arrays given by a function of the indices *)

Lemma zip_with_map {A B C D} (h : B -> C -> D) (f : A -> B) (g : A -> C) (l : list A) :
  zip_with h (map f l) (map g l) = map (fun x => h (f x) (g x)) l.
Proof. induction l as [|a l IH]; cbn; [reflexivity | now rewrite IH]. Qed.

Lemma from_function_ext {A} (r c : Z) (f g : Z -> Z -> A) :
  (forall i j, 0 <= i < r -> 0 <= j < c -> f i j = g i j) ->
  np.from_function r c f = np.from_function r c g.
Proof.
  intros H. unfold np.from_function. f_equal.
  apply map_ext_in. intros i Hi. apply map_ext_in. intros j Hj.
  apply H; now apply range_In.
Qed.

Lemma add_from_function (r c : Z) (f g : Z -> Z -> Z) :
  np.add (np.from_function r c f) (np.from_function r c g) =
  np.from_function r c (fun i j => f i j + g i j).
Proof.
  unfold np.add, np.from_function. cbn [np.shape np.rows]. f_equal.
  rewrite zip_with_map. apply map_ext. intros i. apply zip_with_map.
Qed.

Lemma from_function_wf {A} (r c : Z) (f : Z -> Z -> A) :
  np.wf (np.from_function r c f).
Proof.
  unfold np.wf, np.from_function. cbn [np.shape np.rows fst snd].
  rewrite len_map, range_length. repeat split; try lia.
  apply Forall_forall. intros x Hx. apply in_map_iff in Hx.
  destruct Hx as [i [<- _]]. now rewrite len_map, range_length.
Qed.

Lemma from_function_row {A} (n c i : Z) (f : Z -> Z -> A) :
  0 <= i < n ->
  nth (Z.to_nat i) (np.rows (np.from_function n c f)) [] = map (f i) (range c).
Proof. intros H. unfold np.from_function. cbn [np.rows]. now rewrite nth_range. Qed.

Lemma from_function_diagonal (n : Z) (f : Z -> Z -> Z) :
  np.diagonal (np.from_function n n f) = map (fun i => f i i) (range n).
Proof.
  unfold np.diagonal.
  replace (Z.min _ _) with (Z.max 0 n)
    by (unfold np.from_function; cbn [np.shape fst snd]; lia).
  destruct (Z.le_gt_cases n 0) as [Hn|Hn].
  - rewrite !range_nonpos by lia. reflexivity.
  - replace (Z.max 0 n) with n by lia.
    apply map_ext_in. intros i Hi. apply range_In in Hi.
    rewrite from_function_row by lia. now rewrite nth_range.
Qed.

Lemma eye_ok (n k : Z) :
  0 <= n ->
  np.eye n k = Ok (np.from_function n n (fun i j => if j =? i + k then 1 else 0)).
Proof. intros H. unfold np.eye. now replace (n <? 0) with false by lia. Qed.

(** ** The default dependency matrix *)

Section SequentialMatrix.

Context {RS : RandomSource}.

Lemma add_offsets_run (n : Z) (offsets : list Z) :
  0 <= n ->
  forall (f : Z -> Z -> Z) (w : world),
    for_each offsets (add_offset n) (np.from_function n n f) w =
    (Ok (np.from_function n n
           (fun i j => f i j + lsum (map (offset_entry n i j) offsets))), w).
Proof.
  intros Hn. induction offsets as [|o offsets IH]; intros f w.
  - cbn [for_each map]. unfold ret. do 2 f_equal.
    apply from_function_ext. intros i j _ _. change (lsum []) with 0. lia.
  - cbn [for_each]. unfold bind at 1. unfold add_offset.
    rewrite !eye_ok by assumption. unfold bind, lift, ret.
    rewrite !add_from_function, IH. do 2 f_equal.
    apply from_function_ext. intros i j _ _.
    cbn [map]. rewrite lsum_cons. unfold offset_entry. lia.
Qed.

(** The method returns the closed form and leaves the state as it was. *)
Lemma construct_sequential_run (n k : Z) (w : world) :
  0 <= n ->
  self_N (self w) = Some n -> self_K (self w) = Some k ->
  _construct_sequential_dependency_matrix w = (Ok (sequential_matrix n k), w).
Proof.
  intros Hn HN HK.
  unfold _construct_sequential_dependency_matrix, get_N, get_K, bind, getattr, lift.
  rewrite HN, HK. unfold np.identity. rewrite eye_ok by assumption.
  unfold sequential_matrix, sequential_entry.
  destruct (k >? 0) eqn:Ek.
  - rewrite HK. rewrite add_offsets_run by assumption. reflexivity.
  - unfold ret. do 2 f_equal. apply from_function_ext. intros i j _ _.
    rewrite range_nonpos by lia. cbn [map]. change (lsum []) with 0. lia.
Qed.

End SequentialMatrix.

(** An entry of the sequential matrix is 1 exactly at the columns
    [i, i+1, ..., i+k], taken modulo [n]. *)
Lemma sequential_entry_closed (n i j : Z) (m : nat) :
  0 <= i < n -> 0 <= j < n -> Z.of_nat m < n ->
  sequential_entry n (Z.of_nat m) i j =
  if (j - i) mod n <=? Z.of_nat m then 1 else 0.
Proof.
  intros Hi Hj. unfold sequential_entry.
  assert (Hr : (i <= j /\ (j - i) mod n = j - i) \/
               (j < i /\ (j - i) mod n = j - i + n)).
  { destruct (Z.le_gt_cases i j) as [H|H].
    - left. split; [exact H|]. apply Z.mod_small. lia.
    - right. split; [lia|].
      rewrite <- (Z_mod_plus_full (j - i) 1 n).
      replace (j - i + 1 * n) with (j - i + n) by lia. apply Z.mod_small. lia. }
  induction m as [|m IH]; intros Hm.
  - change (Z.of_nat 0) with 0. rewrite range_nonpos by lia.
    cbn [map]. change (lsum []) with 0.
    destruct (Z.eqb_spec j (i + 0)), (Z.leb_spec ((j - i) mod n) 0); lia.
  - replace (Z.of_nat (S m)) with (Z.of_nat m + 1) in * by lia.
    rewrite range_snoc, map_app, lsum_app, Z.add_assoc, IH by lia.
    cbn [map]. rewrite lsum_cons. change (lsum []) with 0.
    unfold offset_entry.
    destruct (Z.leb_spec ((j - i) mod n) (Z.of_nat m)),
      (Z.leb_spec ((j - i) mod n) (Z.of_nat m + 1)),
      (Z.eqb_spec j (i + (Z.of_nat m + 1))),
      (Z.eqb_spec j (i + - (n - (Z.of_nat m + 1)))); lia.
Qed.

Lemma sequential_entry_binary (n k i j : Z) :
  0 <= k < n -> 0 <= i < n -> 0 <= j < n -> binary (sequential_entry n k i j).
Proof.
  intros Hk Hi Hj. rewrite <- (Z2Nat.id k) by lia.
  rewrite sequential_entry_closed by lia.
  unfold binary. destruct (_ <=? _); auto.
Qed.

Lemma sequential_entry_diagonal (n k i : Z) :
  0 <= k < n -> 0 <= i < n -> sequential_entry n k i i = 1.
Proof.
  intros Hk Hi. rewrite <- (Z2Nat.id k) by lia.
  rewrite sequential_entry_closed by lia.
  rewrite Z.sub_diag, Z.mod_0_l by lia.
  destruct (Z.leb_spec 0 (Z.of_nat (Z.to_nat k))); lia.
Qed.

(** Each offset of the loop adds exactly one 1 to each row. *)
Lemma offset_entry_row_sum (n i offset : Z) :
  0 <= i < n -> 0 <= offset -> offset + 1 < n ->
  lsum (map (fun j => offset_entry n i j offset) (range n)) = 1.
Proof.
  intros Hi Ho Hn. unfold offset_entry.
  rewrite (lsum_map_add (fun j => if j =? i + (offset + 1) then 1 else 0)
                        (fun j => if j =? i + - (n - (offset + 1)) then 1 else 0)).
  rewrite !lsum_indicator.
  destruct (Z.leb_spec 0 (i + (offset + 1))), (Z.ltb_spec (i + (offset + 1)) n),
    (Z.leb_spec 0 (i + - (n - (offset + 1)))),
    (Z.ltb_spec (i + - (n - (offset + 1))) n); cbn [andb]; lia.
Qed.

Lemma offsets_row_sum (n i : Z) (offsets : list Z) :
  0 <= i < n ->
  Forall (fun o => 0 <= o /\ o + 1 < n) offsets ->
  lsum (map (fun j => lsum (map (offset_entry n i j) offsets)) (range n)) =
  len offsets.
Proof.
  intros Hi. induction 1 as [|o offsets [Ho Hn] _ IH].
  - cbn [map]. change (lsum []) with 0. rewrite lsum_map_const. reflexivity.
  - cbn [map].
    rewrite (map_ext _ (fun j => offset_entry n i j o +
                                 lsum (map (offset_entry n i j) offsets)))
      by (intros j; apply lsum_cons).
    rewrite (lsum_map_add (fun j => offset_entry n i j o)
                          (fun j => lsum (map (offset_entry n i j) offsets))).
    rewrite IH, offset_entry_row_sum, len_cons by lia. lia.
Qed.

Lemma sequential_row_sum (n k i : Z) :
  0 <= k < n -> 0 <= i < n ->
  lsum (map (sequential_entry n k i) (range n)) = k + 1.
Proof.
  intros Hk Hi. unfold sequential_entry.
  rewrite (lsum_map_add (fun j => if j =? i + 0 then 1 else 0)
                        (fun j => lsum (map (offset_entry n i j) (range k)))).
  rewrite lsum_indicator, offsets_row_sum, range_length.
  - destruct (Z.leb_spec 0 (i + 0)), (Z.ltb_spec (i + 0) n); cbn [andb]; lia.
  - exact Hi.
  - apply Forall_forall. intros o Ho. apply range_In in Ho. lia.
Qed.

Lemma sequential_matrix_valid (n k : Z) :
  0 <= k < n -> valid_dependency_matrix n k (sequential_matrix n k).
Proof.
  intros Hk. unfold sequential_matrix. constructor.
  - apply from_function_wf.
  - unfold np.from_function. cbn [np.shape]. f_equal; lia.
  - apply Forall_forall. intros r Hr. apply in_map_iff in Hr.
    destruct Hr as [i [<- Hi]]. apply range_In in Hi.
    apply Forall_forall. intros x Hx. apply in_map_iff in Hx.
    destruct Hx as [j [<- Hj]]. apply range_In in Hj.
    now apply sequential_entry_binary.
  - unfold np.trace. rewrite from_function_diagonal.
    rewrite (map_ext_in _ (fun _ => 1)).
    + rewrite lsum_map_const, range_length. lia.
    + intros i Hi. apply range_In in Hi. now apply sequential_entry_diagonal.
  - apply Forall_forall. intros r Hr. apply in_map_iff in Hr.
    destruct Hr as [i [<- Hi]]. apply range_In in Hi.
    now apply sequential_row_sum.
Qed.

Lemma sequential_matrix_K0 (n : Z) :
  0 <= n -> np.identity n = Ok (sequential_matrix n 0).
Proof.
  intros Hn. unfold np.identity. rewrite eye_ok by assumption. f_equal.
  apply from_function_ext. intros i j _ _. unfold sequential_entry.
  rewrite range_nonpos by lia. cbn [map]. change (lsum []) with 0. lia.
Qed.

(** C6.  For every [0 <= K < N], the matrix built by
    [_construct_sequential_dependency_matrix] is returned without raising and
    with the state unchanged, and it satisfies every validation rule: it is
    an array of shape [(N, N)], every entry is 0 or 1, its trace is [N], every
    row sums to [K + 1], and for [K = 0] it is the identity matrix. *)
Theorem default_matrix_satisfies_validation_rules
        {RS : RandomSource} (n k : Z) (w : world) :
  0 <= k < n ->
  self_N (self w) = Some n -> self_K (self w) = Some k ->
  exists dm,
    _construct_sequential_dependency_matrix w = (Ok dm, w) /\
    valid_dependency_matrix n k dm /\
    (k = 0 -> np.identity n = Ok dm).
Proof.
  intros Hk HN HK. exists (sequential_matrix n k). split; [|split].
  - apply construct_sequential_run; [lia | assumption | assumption].
  - now apply sequential_matrix_valid.
  - intros ->. apply sequential_matrix_K0. lia.
Qed.

Lemma default_matrix_satisfies_validation_rules_witness :
  let w := mk_world module_namespace 0 (mk_object (Some 3) (Some 1) None None) in
  exists dm,
    _construct_sequential_dependency_matrix w = (Ok dm, w) /\
    valid_dependency_matrix 3 1 dm /\
    (1 = 0 -> np.identity 3 = Ok dm).
Proof.
  intros w.
  apply (default_matrix_satisfies_validation_rules 3 1 w); [lia | reflexivity | reflexivity].
Defined.

(** ** Validation *)

Lemma forallb2_map_r {A B} (p : A -> B -> bool) (f : A -> B) (l : list A) :
  forallb2 p l (map f l) = forallb (fun x => p x (f x)) l.
Proof. induction l as [|a l IH]; cbn; [reflexivity | now rewrite IH]. Qed.

Lemma binary_test (x : Z) :
  (x =? Z.b2z (negb (x =? 0))) = true <-> binary x.
Proof.
  unfold binary. destruct (Z.eqb_spec x 0) as [->|H0]; cbn.
  - split; auto.
  - rewrite Z.eqb_eq. split; [auto | intros [H|H]; [contradiction | exact H]].
Qed.

Lemma shape_eqb_eq (s t : Z * Z) : np.shape_eqb s t = true <-> s = t.
Proof.
  destruct s as [a b], t as [c d]. unfold np.shape_eqb. cbn [fst snd].
  rewrite andb_true_iff, !Z.eqb_eq. split; [intros [-> ->]; reflexivity|].
  intros [= -> ->]. auto.
Qed.

(** The second test of the validation accepts exactly the arrays of bits. *)
Lemma binary_check_spec (dm : np.ndarray Z) :
  np.array_equal_int_bool dm (np.astype_bool dm) = true <->
  Forall (Forall binary) (np.rows dm).
Proof.
  unfold np.array_equal_int_bool, np.astype_bool, np.map_array.
  cbn [np.shape np.rows].
  replace (np.shape_eqb (np.shape dm) (np.shape dm)) with true
    by (symmetry; now apply shape_eqb_eq).
  cbn [andb]. rewrite forallb2_map_r, forallb_forall, Forall_forall.
  split; intros H r Hr; specialize (H r Hr).
  - rewrite forallb2_map_r, forallb_forall in H. apply Forall_forall.
    intros x Hx. apply binary_test. now apply H.
  - rewrite forallb2_map_r, forallb_forall. intros x Hx.
    apply binary_test. rewrite Forall_forall in H. now apply H.
Qed.

Lemma binary_check_rejects (dm : np.ndarray Z) :
  Exists (Exists (fun x => ~ binary x)) (np.rows dm) ->
  np.array_equal_int_bool dm (np.astype_bool dm) = false.
Proof.
  intros H. apply not_true_is_false. intros Ht.
  apply binary_check_spec in Ht.
  apply Exists_exists in H. destruct H as [r [Hr Hx]].
  apply Exists_exists in Hx. destruct Hx as [x [Hx Hnb]].
  rewrite Forall_forall in Ht. specialize (Ht r Hr).
  rewrite Forall_forall in Ht. exact (Hnb (Ht x Hx)).
Qed.

Lemma array_equal_eq (a b : list Z) : np.array_equal a b = true <-> a = b.
Proof.
  unfold np.array_equal. revert b.
  induction a as [|x a IH]; intros [|y b]; cbn; split; try easy.
  - rewrite andb_true_iff, Z.eqb_eq, IH. now intros [-> ->].
  - intros [= -> ->]. rewrite andb_true_iff, Z.eqb_eq, IH. auto.
Qed.

Section Validation.

Context {RS : RandomSource}.

(** The binary test of the constructor is run on the converted matrix:
    whatever [N] and [K], a supplied dependency matrix of which some entry
    of [astype(int)] is neither 0 nor 1 makes the construction fail with
    [ValueError]. *)
Lemma non_binary_after_conversion_rejected
        (g : namespace) (N K : option Z) (a : array_arg)
        (fm : option (np.ndarray float)) (s : rng) :
  Exists (Exists (fun x => ~ binary x)) (np.rows (astype_int a)) ->
  is_ValueError (fst (construct g N K (Some a) fm s)).
Proof.
  intros H. unfold construct, __init__, _check_dependency_matrix.
  destruct N as [n|]; [|eexists; reflexivity].
  destruct K as [k|]; [|eexists; reflexivity].
  run.
  destruct (k >=? n); [eexists; reflexivity|]. run.
  destruct (np.shape_eqb _ _); [|eexists; reflexivity]. run.
  rewrite (binary_check_rejects _ H). eexists; reflexivity.
Qed.

End Validation.

(** The float matrix [[1, 2.5], [1, 1]]: 2.5 is truncated to 2, which the
    binary test refuses. *)
Lemma truncated_entry_is_rejected :
  astype_int (FloatArray (array2 [[1; 2.5]; [1; 1]]%float)) =
    array2 [[1; 2]; [1; 1]] /\
  is_ValueError
    (fst (construct module_namespace (Some 2) (Some 1)
            (Some (FloatArray (array2 [[1; 2.5]; [1; 1]]%float))) None 0)).
Proof.
  split; [vm_compute; reflexivity|].
  apply (@non_binary_after_conversion_rejected counter_source).
  replace (astype_int (FloatArray (array2 [[1; 2.5]; [1; 1]]%float)))
    with (array2 [[1; 2]; [1; 1]]) by (vm_compute; reflexivity).
  cbn. apply Exists_cons_hd. apply Exists_cons_tl. apply Exists_cons_hd.
  unfold binary. lia.
Defined.

(** C4: the program at the failing input.  [N = 1], [K = 0] and the float
    matrix [[1.5]], whose entry is neither 0 nor 1: [astype(int)] truncates
    it to [[1]] before the binary test, which therefore lets it through.  In
    the module as it stands the construction ends in [NameError], and in a
    namespace that binds [K] it succeeds with the coerced matrix; in neither
    case is the [ValueError] of the binary test raised, against the
    docstring (a matrix of zeros and ones) and the message of that test. *)
Lemma fractional_entry_is_coerced :
  let a := FloatArray (array2 [[1.5%float]]) in
  let fm := array2 [[0%float; 1%float]] in
  (PrimFloat.eqb 1.5 0 = false /\ PrimFloat.eqb 1.5 1 = false) /\
  astype_int a = array2 [[1]] /\
  construct module_namespace (Some 1) (Some 0) (Some a) (Some fm) 0 =
    (Raise (NameError "K"), 0) /\
  construct [("K"%string, 0)] (Some 1) (Some 0) (Some a) (Some fm) 0 =
    (Ok (landscape 1 0 (array2 [[1]]) fm), 0) /\
  ~ is_ValueError
      (fst (construct module_namespace (Some 1) (Some 0) (Some a) (Some fm) 0)) /\
  ~ is_ValueError
      (fst (construct [("K"%string, 0)] (Some 1) (Some 0) (Some a) (Some fm) 0)).
Proof.
  repeat split; try (vm_compute; reflexivity);
    intros [e He]; vm_compute in He; discriminate He.
Qed.

(** C1: the program at the failing input.  [N = 2], [K = 0] and the matrix
    [[1, 1], [0, 1]]: binary, of trace 2 and of total sum 3.  The K = 0 test
    reads the free name [K], which the module does not bind: the validation
    raises [NameError], not [ValueError]. *)
Lemma K0_check_reads_an_unbound_name :
  let dm := array2 [[1; 1]; [0; 1]] in
  let fm := array2 [[0%float; 1%float]; [0%float; 1%float]] in
  np.sum dm = 3 /\
  _check_dependency_matrix (mk_world module_namespace 0 (landscape 2 0 dm fm)) =
    (Raise (NameError "K"), mk_world module_namespace 0 (landscape 2 0 dm fm)) /\
  construct module_namespace (Some 2) (Some 0) (Some (IntArray dm)) (Some fm) 0 =
    (Raise (NameError "K"), 0).
Proof. repeat split; vm_compute; reflexivity. Qed.

(** C3: the program at the failing input.  On the valid landscape [N = 2],
    [K = 1] the setter is given the [(1, 1)] matrix [[1]]: the validation
    raises, and the instance now holds the rejected matrix. *)
Lemma setter_keeps_the_rejected_matrix :
  let old := array2 [[1; 1]; [1; 1]] in
  let fm := array2 [[0; 0; 0; 0]; [0; 0; 0; 0]]%float in
  let rejected := array2 [[1]] in
  set_dependency_matrix rejected (mk_world module_namespace 0 (landscape 2 1 old fm)) =
    (Raise (ValueError matrix_shape_not_N_N),
     mk_world module_namespace 0 (landscape 2 1 rejected fm)) /\
  rejected <> old.
Proof. split; [vm_compute; reflexivity | discriminate]. Qed.

(** C5: the program at the failing input.  [N = 3], [K = -1]: the
    construction succeeds, with the identity matrix (rows summing to 1, not
    to [K + 1 = 0]) and a fitness mapping of shape [(3, 1)]. *)
Lemma negative_K_is_accepted :
  construct module_namespace (Some 3) (Some (-1)) None None 0 =
    (Ok (landscape 3 (-1)
           (array2 [[1; 0; 0]; [0; 1; 0]; [0; 0; 1]])
           (array2 [[-1]; [-1]; [-1]]%float)), 3) /\
  calculate_fitness (np.mk_int_array np.int64 [1; 0; 0])
    (mk_world module_namespace 3
       (landscape 3 (-1)
          (array2 [[1; 0; 0]; [0; 1; 0]; [0; 0; 1]])
          (array2 [[-1]; [-1]; [-1]]%float))) =
    (Raise IndexError,
     mk_world module_namespace 3
       (landscape 3 (-1)
          (array2 [[1; 0; 0]; [0; 1; 0]; [0; 0; 1]])
          (array2 [[-1]; [-1]; [-1]]%float))).
Proof. split; vm_compute; reflexivity. Qed.

(** C7.  [N = 3], [K = 1] with the default matrix: the dependency indices of
    rows 0, 1 and 2 are [0, 1], [1, 2] and [0, 2] (the set {2, 0}), and the
    rolled indices of row 2 are [2, 0]. *)
Theorem sequential_3_1_dependency_indices :
  let fm := array2 [[0; 0; 0; 0]; [0; 0; 0; 0]; [0; 0; 0; 0]]%float in
  let dm := array2 [[1; 1; 0]; [0; 1; 1]; [1; 0; 1]] in
  let w := mk_world module_namespace 0 (landscape 3 1 dm fm) in
  construct module_namespace (Some 3) (Some 1) None (Some fm) 0 =
    (Ok (landscape 3 1 dm fm), 0) /\
  dependency_indicies 0 w = (Ok [0; 1], w) /\
  dependency_indicies 1 w = (Ok [1; 2], w) /\
  dependency_indicies 2 w = (Ok [0; 2], w) /\
  rolled_dependency_indicies 0 w = (Ok [0; 1], w) /\
  rolled_dependency_indicies 1 w = (Ok [1; 2], w) /\
  rolled_dependency_indicies 2 w = (Ok [2; 0], w).
Proof. repeat split; vm_compute; reflexivity. Qed.

(** ** Construction: the range of [K] *)

Section Construction.

Context {RS : RandomSource}.

Lemma uniform_ok (low high : float) (r c : Z) (s : rng) :
  0 <= r -> 0 <= c ->
  exists a s', np.random.uniform low high (r, PyInt c) s = (Ok a, s') /\
               np.shape a = (r, c).
Proof.
  intros Hr Hc. unfold np.random.uniform. cbn [fst snd].
  replace ((r <? 0) || (c <? 0)) with false by lia.
  destruct (draw_list _ _ s) as [rs s']. now exists (np.mk_ndarray (r, c) rs), s'.
Qed.

(** [K >= N] is refused, whatever the other arguments. *)
Lemma construct_rejects_K_ge_N
      (g : namespace) (n k : Z) (dm : option array_arg)
      (fm : option (np.ndarray float)) (s : rng) :
  n <= k ->
  construct g (Some n) (Some k) dm fm s =
    (Raise (ValueError K_must_be_less_than_N), s).
Proof.
  intros H. unfold construct, __init__. run.
  replace (k >=? n) with true by lia. reflexivity.
Qed.

(** With the default matrix every [0 <= K < N] is accepted, [K = N - 1]
    included. *)
Lemma construct_accepts_default
      (g : namespace) (n k : Z) (fm : option (np.ndarray float)) (s : rng) :
  0 <= k < n ->
  exists o s',
    construct g (Some n) (Some k) None fm s = (Ok o, s') /\
    self_N o = Some n /\ self_K o = Some k /\
    self_dependency_matrix o = Some (sequential_matrix n k).
Proof.
  intros H. unfold construct, __init__. run.
  replace (k >=? n) with false by lia. run.
  rewrite (construct_sequential_run n k) by (cbn; (lia || reflexivity)).
  destruct fm as [fm|]; run.
  - eexists _, _. repeat split.
  - unfold py_pow. replace (0 <=? k + 1) with true by lia.
    destruct (uniform_ok (-1) 1 n (2 ^ (k + 1)) s) as [a [s' [E _]]];
      [lia | apply Z.pow_nonneg; lia |].
    rewrite E. run. eexists _, _. repeat split.
Qed.

Lemma construct_accepts_K_max
      (g : namespace) (n : Z) (fm : option (np.ndarray float)) (s : rng) :
  0 < n -> is_Ok (fst (construct g (Some n) (Some (n - 1)) None fm s)).
Proof.
  intros H.
  destruct (construct_accepts_default g n (n - 1) fm s) as [o [s' [E _]]]; [lia|].
  rewrite E. now exists o.
Qed.

End Construction.

(** ** Sampling *)

Lemma draw_list_length {S A} (draw : S -> A * S) (n : nat) (s : S) :
  length (fst (draw_list draw n s)) = n.
Proof.
  revert s. induction n as [|n IH]; intros s; [reflexivity|].
  cbn [draw_list]. destruct (draw s) as [x s1].
  specialize (IH s1). destruct (draw_list draw n s1) as [xs s2].
  cbn [fst length] in *. now rewrite IH.
Qed.

Lemma draw_list_Forall {S A} (P : A -> Prop) (draw : S -> A * S) :
  (forall s, P (fst (draw s))) ->
  forall n s, Forall P (fst (draw_list draw n s)).
Proof.
  intros H. induction n as [|n IH]; intros s; [constructor|].
  cbn [draw_list]. pose proof (H s) as Hx. destruct (draw s) as [x s1].
  specialize (IH s1). destruct (draw_list draw n s1) as [xs s2].
  cbn [fst] in *. now constructor.
Qed.

Section Sampling.

Context {RS : RandomSource}.

Lemma randint_2_ok (r c : Z) (s : rng) :
  0 <= r -> 0 <= c ->
  exists a, fst (np.random.randint 2 (r, c) s) = Ok a /\
            np.wf a /\ np.shape a = (r, c) /\
            Forall (Forall binary) (np.rows a).
Proof.
  intros Hr Hc. unfold np.random.randint. cbn [fst snd].
  replace (2 <=? 0) with false by lia.
  replace ((r <? 0) || (c <? 0)) with false by lia.
  pose proof (draw_list_length
                (draw_list (draw_randint 2) (Z.to_nat c)) (Z.to_nat r) s) as Hlen.
  pose proof (draw_list_Forall
                (fun row => len row = c /\ Forall binary row)
                (draw_list (draw_randint 2) (Z.to_nat c))) as Hrows.
  specialize (Hrows
    (fun s0 => conj
       (eq_trans (f_equal Z.of_nat (draw_list_length _ _ s0)) (Z2Nat.id c Hc))
       (draw_list_Forall binary (draw_randint 2)
          (fun s1 => ltac:(pose proof (draw_randint_range 2 s1 ltac:(lia));
                           unfold binary; lia)) _ s0))
    (Z.to_nat r) s).
  destruct (draw_list _ _ s) as [rs s']. cbn [fst] in *.
  exists (np.mk_ndarray (r, c) rs). split; [reflexivity|].
  unfold np.wf. cbn [np.shape np.rows fst snd]. repeat split.
  - unfold len. lia.
  - exact Hc.
  - eapply Forall_impl; [|exact Hrows]. now intros row [H _].
  - eapply Forall_impl; [|exact Hrows]. now intros row [_ H].
Qed.

(** C9 (amended).  On a landscape with [N >= 0]: [generate_solutions]
    fails with [ValueError] when [num] is not given and when [num] is
    negative (NumPy refuses the dimension); for every [num >= 0], zero
    included, it returns an array of shape [(num, N)] whose every entry is
    0 or 1, and it changes nothing but the state of the random source. *)
Theorem generate_solutions_shape_and_bits (n : Z) (w : world) :
  0 <= n -> self_N (self w) = Some n ->
  generate_solutions None w = (Raise (ValueError num_must_be_specified), w) /\
  (forall num, num < 0 ->
     generate_solutions (Some num) w = (Raise (ValueError negative_dimensions), w)) /\
  (forall num, 0 <= num ->
     exists a w',
       generate_solutions (Some num) w = (Ok a, w') /\
       self w' = self w /\ globals w' = globals w /\
       np.wf a /\ np.shape a = (num, n) /\
       Forall (Forall binary) (np.rows a)).
Proof.
  intros Hn HN. split; [reflexivity|]. split.
  - intros num Hnum. unfold generate_solutions. run. rewrite HN.
    unfold np.random.randint. cbn [fst snd].
    replace (2 <=? 0) with false by lia.
    replace ((num <? 0) || (n <? 0)) with true by lia.
    destruct w; reflexivity.
  - intros num Hnum. unfold generate_solutions. run. rewrite HN.
    destruct (randint_2_ok num n (rng_state w) Hnum Hn) as [a [E [Hwf [Hs Hb]]]].
    destruct (np.random.randint 2 (num, n) (rng_state w)) as [r s'].
    cbn [fst] in E. subst r. eexists a, _.
    split; [reflexivity|]. split; [reflexivity|]. split; [reflexivity|].
    split; [exact Hwf|]. split; assumption.
Qed.

End Sampling.

Lemma generate_solutions_shape_and_bits_witness :
  let w := mk_world module_namespace 0
             (landscape 2 0 (array2 [[1; 0]; [0; 1]])
                        (array2 [[0; 1]; [1; 0]]%float)) in
  exists a w',
    generate_solutions (Some 3) w = (Ok a, w') /\
    self w' = self w /\ globals w' = globals w /\
    np.wf a /\ np.shape a = (3, 2) /\
    Forall (Forall binary) (np.rows a).
Proof.
  intros w.
  apply (proj2 (proj2 (generate_solutions_shape_and_bits 2 w
                         ltac:(lia) eq_refl)) 3).
  lia.
Defined.

(** C9, as stated, fails: [num = 0] is not positive, and the call returns
    the empty array of shape [(0, 4)] instead of raising. *)
Lemma zero_solutions_are_returned :
  let w := mk_world module_namespace 0
             (landscape 4 0
                (array2 [[1; 0; 0; 0]; [0; 1; 0; 0]; [0; 0; 1; 0]; [0; 0; 0; 1]])
                (array2 [[0; 1]; [1; 0]; [0; 1]; [1; 0]]%float)) in
  generate_solutions (Some 0) w = (Ok (np.mk_ndarray (0, 4) []), w) /\
  ~ is_ValueError (fst (generate_solutions (Some 0) w)).
Proof.
  split; [vm_compute; reflexivity|].
  intros [e He]. vm_compute in He. discriminate He.
Qed.

(** ** Evaluation reads the instance and nothing else *)

Section EvaluationOnly.

Context {RS : RandomSource}.

Lemma evaluation_only_lift {A} (r : result A) : evaluation_only (lift r).
Proof. intros w. split; [reflexivity | intros w' _; reflexivity]. Qed.

Lemma evaluation_only_ret {A} (a : A) : evaluation_only (ret a).
Proof. intros w. split; [reflexivity | intros w' _; reflexivity]. Qed.

Lemma evaluation_only_bind {A B} (m : M A) (f : A -> M B) :
  evaluation_only m -> (forall a, evaluation_only (f a)) ->
  evaluation_only (bind m f).
Proof.
  intros Hm Hf w. unfold bind.
  destruct (Hm w) as [Hs Hr]. split.
  - destruct (m w) as [[a|e] w1]; cbn [snd] in Hs; subst w1.
    + apply (Hf a w).
    + reflexivity.
  - intros w' Hw. specialize (Hr w' Hw).
    destruct (Hm w') as [Hs' _].
    destruct (m w) as [[a|e] w1], (m w') as [[a'|e'] w1'];
      cbn [fst snd] in *; subst; try discriminate.
    + injection Hr as ->. now apply (Hf a' w).
    + injection Hr as ->. reflexivity.
Qed.

Lemma evaluation_only_get_N : evaluation_only get_N.
Proof.
  intros w. unfold get_N, getattr. split.
  - now destruct (self_N (self w)).
  - intros w' [H _]. rewrite <- H. now destruct (self_N (self w)).
Qed.

Lemma evaluation_only_get_dependency_matrix :
  evaluation_only get_dependency_matrix.
Proof.
  intros w. unfold get_dependency_matrix, getattr. split.
  - now destruct (self_dependency_matrix (self w)).
  - intros w' [_ [H _]]. rewrite <- H.
    now destruct (self_dependency_matrix (self w)).
Qed.

Lemma evaluation_only_get_fitness_mapping :
  evaluation_only get_fitness_mapping.
Proof.
  intros w. unfold get_fitness_mapping, getattr. split.
  - now destruct (self_fitness_mapping (self w)).
  - intros w' [_ [_ H]]. rewrite <- H.
    now destruct (self_fitness_mapping (self w)).
Qed.

Lemma evaluation_only_for_each {A B} (body : B -> A -> M B) (l : list A) :
  (forall acc x, evaluation_only (body acc x)) ->
  forall acc, evaluation_only (for_each l body acc).
Proof.
  intros Hb. induction l as [|x l IH]; intros acc; cbn [for_each].
  - apply evaluation_only_ret.
  - apply evaluation_only_bind; [apply Hb | exact IH].
Qed.

Lemma evaluation_only_calculate_fitness (solution : np.int_array) :
  evaluation_only (calculate_fitness solution).
Proof.
  unfold calculate_fitness.
  apply evaluation_only_bind; [apply evaluation_only_get_N|]. intros n.
  apply evaluation_only_for_each. intros fitness i.
  unfold add_contribution, row_decimal, rolled_dependency_indicies,
    dependency_indicies.
  repeat first
    [ apply evaluation_only_ret
    | apply evaluation_only_lift
    | apply evaluation_only_get_dependency_matrix
    | apply evaluation_only_get_fitness_mapping
    | apply evaluation_only_bind; [|intros ?] ].
Qed.

(** C8.  [calculate_fitness] is deterministic.  A call leaves the whole
    state (the attributes of the instance, the module namespace, the state
    of the random source) as it was; a second call made right after the
    first one returns what the first returned; and on two landscapes with
    the same dependency matrix (of the shape the invariant prescribes) and
    the same fitness mapping, the same solution gets the same result,
    whatever the states of the random source. *)
Theorem calculate_fitness_deterministic (solution : np.int_array) :
  (forall w, snd (calculate_fitness solution w) = w) /\
  (forall w,
     bind (calculate_fitness solution) (fun _ => calculate_fitness solution) w =
     calculate_fitness solution w) /\
  (forall g g' s s' n n' k k' dm fm,
     np.shape dm = (n, n) -> np.shape dm = (n', n') ->
     fst (calculate_fitness solution (mk_world g s (landscape n k dm fm))) =
     fst (calculate_fitness solution (mk_world g' s' (landscape n' k' dm fm)))).
Proof.
  pose proof (evaluation_only_calculate_fitness solution) as H.
  split; [|split].
  - intros w. apply (H w).
  - intros w. unfold bind. destruct (H w) as [Hs _].
    destruct (calculate_fitness solution w) as [[v|e] w1] eqn:E.
    + cbn [snd] in Hs. subst w1. exact E.
    + reflexivity.
  - intros g g' s s' n n' k k' dm fm Hn Hn'.
    apply (H (mk_world g s (landscape n k dm fm))).
    unfold same_inputs. cbn. repeat split. congruence.
Qed.

End EvaluationOnly.

Lemma calculate_fitness_deterministic_witness :
  let dm := array2 [[1; 0]; [0; 1]] in
  let fm := array2 [[0; 1]; [1; 0]]%float in
  fst (calculate_fitness (np.mk_int_array np.int64 [1; 0])
         (mk_world module_namespace 0 (landscape 2 0 dm fm))) =
  fst (calculate_fitness (np.mk_int_array np.int64 [1; 0])
         (mk_world [("K"%string, 5)] 7 (landscape 2 1 dm fm))).
Proof.
  intros dm fm.
  apply (proj2 (proj2 (@calculate_fitness_deterministic counter_source
                         (np.mk_int_array np.int64 [1; 0])))
               module_namespace [("K"%string, 5)] 0 7 2 2 0 1 dm fm);
    reflexivity.
Defined.

(** ** The steps of the evaluation *)

Lemma filter_map_comm {A B} (p : B -> bool) (f : A -> B) (l : list A) :
  filter p (map f l) = map f (filter (fun x => p (f x)) l).
Proof.
  induction l as [|a l IH]; [reflexivity|].
  cbn [map filter]. rewrite IH. now destruct (p (f a)).
Qed.

Lemma argwhere_cons (b : bool) (m : list bool) :
  np.argwhere (b :: m) =
  (if b then [0] else []) ++ map (Z.add 1) (np.argwhere m).
Proof.
  unfold np.argwhere, len. cbn [length]. rewrite range_cons.
  cbn [filter]. change (nth (Z.to_nat 0) (b :: m) false) with b.
  rewrite filter_map_comm.
  rewrite (filter_ext_in (fun x => nth (Z.to_nat (1 + x)) (b :: m) false)
                         (fun x => nth (Z.to_nat x) m false)).
  - now destruct b.
  - intros x Hx. apply range_In in Hx.
    replace (Z.to_nat (1 + x)) with (S (Z.to_nat x)) by lia. reflexivity.
Qed.

(** The indices found by [argwhere] are those of the specification. *)
Lemma argwhere_ones_from (row : list Z) (j : Z) :
  map (Z.add j) (np.argwhere (map (fun x => x =? 1) row)) = ones_from j row.
Proof.
  revert j. induction row as [|x row IH]; intros j; [reflexivity|].
  cbn [map ones_from]. rewrite argwhere_cons, map_app, map_map.
  rewrite <- (IH (j + 1)).
  rewrite (map_ext (fun x0 => j + (1 + x0)) (Z.add (j + 1))) by (intros; lia).
  destruct (x =? 1); cbn [map app]; [rewrite Z.add_0_r|]; reflexivity.
Qed.

Lemma argwhere_ones (row : list Z) :
  np.argwhere (map (fun x => x =? 1) row) = ones_from 0 row.
Proof.
  rewrite <- argwhere_ones_from.
  rewrite (map_ext (Z.add 0) (fun x => x)) by (intros; lia).
  now rewrite map_id.
Qed.

Lemma ones_from_length (row : list Z) (j : Z) :
  Forall binary row -> len (ones_from j row) = lsum row.
Proof.
  intros H. revert j. induction H as [|x row Hx _ IH]; intros j; [reflexivity|].
  cbn [ones_from]. rewrite lsum_cons.
  destruct Hx as [-> | ->]; cbn [Z.eqb Pos.eqb];
    [|rewrite len_cons]; rewrite IH; lia.
Qed.

Lemma ones_from_bounds (row : list Z) (j c : Z) :
  In c (ones_from j row) -> j <= c < j + len row.
Proof.
  revert j. induction row as [|x row IH]; intros j; [intros []|].
  cbn [ones_from]. rewrite len_cons.
  destruct (x =? 1); [intros [<- | H] | intros H];
    try (apply IH in H); pose proof (len_nonneg row); lia.
Qed.

Lemma ones_from_In (row : list Z) (j c : Z) :
  j <= c < j + len row -> nth (Z.to_nat (c - j)) row 0 = 1 ->
  In c (ones_from j row).
Proof.
  revert j. induction row as [|x row IH]; intros j Hc Hn.
  - unfold len in Hc. cbn in Hc. lia.
  - cbn [ones_from]. rewrite len_cons in Hc.
    destruct (Z.eq_dec c j) as [->|Hne].
    + rewrite Z.sub_diag in Hn. cbn in Hn. subst x. left. reflexivity.
    + assert (In c (ones_from (j + 1) row)).
      { apply IH; [lia|].
        replace (Z.to_nat (c - j)) with (S (Z.to_nat (c - (j + 1)))) in Hn by lia.
        exact Hn. }
      destruct (x =? 1); [right|]; assumption.
Qed.

(** Where [i] first occurs in the index list, as the program finds it. *)
Lemma first_position (i : Z) (l : list Z) :
  In i l ->
  exists l1 l2,
    l = l1 ++ i :: l2 /\ ~ In i l1 /\
    getitem (np.argwhere (map (fun j => j =? i) l)) 0 = Ok (len l1).
Proof.
  induction l as [|x l IH]; [intros []|]. intros Hin.
  cbn [map]. rewrite argwhere_cons.
  destruct (Z.eqb_spec x i) as [->|Hne].
  - exists [], l. split; [reflexivity|]. split; [intros []|].
    cbn [app]. now rewrite (getitem_ok _ 0 0) by (rewrite len_cons; pose proof (len_nonneg (map (Z.add 1) (np.argwhere (map (fun j => j =? i) l)))); lia).
  - destruct Hin as [Hx|Hin]; [contradiction|].
    destruct (IH Hin) as [l1 [l2 [-> [Hnot E]]]].
    exists (x :: l1), l2. split; [reflexivity|]. split.
    + intros [Hx|Hx]; [contradiction | now apply Hnot].
    + cbn [app]. rewrite getitem_map, E, len_cons. f_equal. lia.
Qed.

Lemma roll_length {A} (a : list A) (shift : Z) : len (np.roll a shift) = len a.
Proof.
  unfold np.roll. destruct a as [|x a]; [reflexivity|].
  set (l := x :: a). set (k := Z.to_nat (len l - shift mod len l)).
  rewrite len_app, Z.add_comm, <- len_app. now rewrite firstn_skipn.
Qed.

Lemma roll_to_first {A} (l1 l2 : list A) (x : A) :
  np.roll (l1 ++ x :: l2) (- len l1) = (x :: l2) ++ l1.
Proof.
  destruct l1 as [|z l1].
  - cbn [app]. unfold np.roll. change (- len []) with 0.
    pose proof (len_nonneg l2). rewrite Z.mod_0_l by (rewrite len_cons; lia).
    rewrite Z.sub_0_r. unfold len. rewrite Nat2Z.id, skipn_all, firstn_all.
    cbn [app]. now rewrite app_nil_r.
  - unfold np.roll. cbn [app].
    change (z :: l1 ++ x :: l2) with ((z :: l1) ++ x :: l2).
    set (p := len (z :: l1)). set (q := len (x :: l2)).
    assert (Hp : 0 < p) by (unfold p; rewrite len_cons; pose proof (len_nonneg l1); lia).
    assert (Hq : 0 < q) by (unfold q; rewrite len_cons; pose proof (len_nonneg l2); lia).
    rewrite len_app. fold p q.
    assert (Hm : - p mod (p + q) = q).
    { rewrite <- (Z_mod_plus_full (- p) 1 (p + q)).
      replace (- p + 1 * (p + q)) with q by lia. apply Z.mod_small. lia. }
    rewrite Hm. replace (Z.to_nat (p + q - q)) with (length (z :: l1))
      by (unfold p, len; lia).
    rewrite skipn_app, firstn_app, skipn_all, firstn_all, Nat.sub_diag.
    cbn [skipn firstn app]. now rewrite app_nil_r.
Qed.

Lemma rotate_left_until_spec (i : Z) (l1 : list Z) :
  forall (l2 : list Z) (fuel : nat),
    ~ In i l1 -> (length l1 < fuel)%nat ->
    rotate_left_until fuel i (l1 ++ i :: l2) = (i :: l2) ++ l1.
Proof.
  induction l1 as [|x l1 IH]; intros l2 fuel Hnot Hfuel.
  - destruct fuel as [|fuel]; [cbn in Hfuel; lia|].
    cbn [app rotate_left_until]. rewrite Z.eqb_refl. now rewrite app_nil_r.
  - destruct fuel as [|fuel]; [cbn in Hfuel; lia|].
    cbn [app rotate_left_until].
    destruct (Z.eqb_spec x i) as [->|Hne]; [exfalso; apply Hnot; now left|].
    rewrite <- app_assoc. cbn [app].
    rewrite IH.
    + cbn [app]. now rewrite <- app_assoc.
    + intros H. apply Hnot. now right.
    + cbn [length] in Hfuel. lia.
Qed.

Lemma rotate_to_front_spec (i : Z) (l1 l2 : list Z) :
  ~ In i l1 -> rotate_to_front i (l1 ++ i :: l2) = (i :: l2) ++ l1.
Proof.
  intros H. unfold rotate_to_front. apply rotate_left_until_spec; [exact H|].
  rewrite length_app. cbn [length]. lia.
Qed.

Lemma take_ok (solution indices : list Z) :
  Forall (fun j => 0 <= j < len solution) indices ->
  np.take solution indices =
  Ok (map (fun j => nth (Z.to_nat j) solution 0) indices).
Proof.
  induction 1 as [|j indices Hj _ IH]; [reflexivity|].
  cbn [np.take map]. now rewrite (getitem_ok solution j 0 Hj), IH.
Qed.

Lemma nth_binary (l : list Z) (k : nat) : Forall binary l -> binary (nth k l 0).
Proof.
  intros H. revert k. induction H as [|x l Hx _ IH]; intros [|k]; cbn;
    try (left; reflexivity); [exact Hx | apply IH].
Qed.

Lemma nth_Forall_binary (rows : list (list Z)) (k : nat) :
  Forall (Forall binary) rows -> Forall binary (nth k rows []).
Proof.
  intros H. revert k. induction H as [|r rows Hr _ IH]; intros [|k]; cbn;
    try constructor; [exact Hr | apply IH].
Qed.

Lemma fold_left_ext_in {A B} (f g : A -> B -> A) (l : list B) :
  (forall a x, In x l -> f a x = g a x) ->
  forall a, fold_left f l a = fold_left g l a.
Proof.
  induction l as [|x l IH]; intros H a; [reflexivity|].
  cbn [fold_left]. rewrite (H a x) by now left.
  apply IH. intros a' y Hy. apply H. now right.
Qed.

Lemma positional_value_cons (b : Z) (rest : list Z) :
  positional_value (b :: rest) = b * 2 ^ len rest + positional_value rest.
Proof.
  unfold positional_value. rewrite len_cons.
  rewrite range_snoc by apply len_nonneg. rewrite fold_left_app.
  cbn [fold_left].
  replace (Z.to_nat (len rest + 1 - len rest - 1)) with O by lia.
  cbn [nth].
  rewrite (fold_left_ext_in _
             (fun decimal i =>
                decimal + nth (Z.to_nat (len rest - i - 1)) rest 0 * 2 ^ i)).
  - lia.
  - intros a i Hi. apply range_In in Hi.
    replace (Z.to_nat (len rest + 1 - i - 1))
      with (S (Z.to_nat (len rest - i - 1))) by lia.
    reflexivity.
Qed.

Lemma msb_first_value_acc (bits : list Z) (acc : Z) :
  fold_left (fun a b => 2 * a + b) bits acc =
  acc * 2 ^ len bits + msb_first_value bits.
Proof.
  unfold msb_first_value. revert acc.
  induction bits as [|b bits IH]; intros acc.
  - cbn. lia.
  - cbn [fold_left]. rewrite IH, (IH (2 * 0 + b)), len_cons.
    rewrite Z.pow_add_r by (try apply len_nonneg; lia). lia.
Qed.

Lemma msb_first_value_cons (b : Z) (bits : list Z) :
  msb_first_value (b :: bits) = b * 2 ^ len bits + msb_first_value bits.
Proof.
  unfold msb_first_value at 1. cbn [fold_left].
  rewrite msb_first_value_acc. lia.
Qed.

(** The sum formed by the program is the most-significant-bit-first value. *)
Lemma positional_value_msb_first (bits : list Z) :
  positional_value bits = msb_first_value bits.
Proof.
  induction bits as [|b bits IH]; [reflexivity|].
  now rewrite positional_value_cons, msb_first_value_cons, IH.
Qed.

Lemma msb_first_value_bounds (bits : list Z) :
  Forall binary bits -> 0 <= msb_first_value bits < 2 ^ len bits.
Proof.
  induction 1 as [|b bits Hb _ IH]; [cbn; lia|].
  rewrite msb_first_value_cons, len_cons.
  rewrite Z.pow_add_r by (try apply len_nonneg; lia).
  destruct Hb as [-> | ->]; lia.
Qed.

(** ** Arithmetic in an element type *)

Lemma dtype_modulus_pos (dt : np.dtype) : 0 < 2 ^ np.dtype_bits dt.
Proof. destruct dt; reflexivity. Qed.

Lemma dtype_min_nonpos (dt : np.dtype) : np.dtype_min dt <= 0.
Proof. destruct dt; vm_compute; discriminate. Qed.

Lemma in_range_spec (dt : np.dtype) (z : Z) :
  np.in_range dt z = true <-> np.dtype_min dt <= z <= np.dtype_max dt.
Proof. unfold np.in_range. rewrite andb_true_iff, !Z.leb_le. tauto. Qed.

Lemma wrap_in_range (dt : np.dtype) (z : Z) :
  np.dtype_min dt <= z <= np.dtype_max dt -> np.wrap dt z = z.
Proof.
  intros H. unfold np.wrap. unfold np.dtype_max in H.
  rewrite Z.mod_small by lia. lia.
Qed.

Lemma wrap_add (dt : np.dtype) (a b : Z) :
  np.wrap dt (np.wrap dt a + np.wrap dt b) = np.wrap dt (a + b).
Proof.
  unfold np.wrap. f_equal.
  set (lo := np.dtype_min dt). set (m := 2 ^ np.dtype_bits dt).
  replace ((a - lo) mod m + lo + ((b - lo) mod m + lo) - lo)
    with ((a - lo) mod m + ((b - lo) mod m + lo)) by lia.
  rewrite Zplus_mod_idemp_l.
  replace (a - lo + ((b - lo) mod m + lo)) with ((b - lo) mod m + a) by lia.
  rewrite Zplus_mod_idemp_l. f_equal. lia.
Qed.

(** The greatest value of an element type is one less than a power of 2. *)
Lemma dtype_max_power (dt : np.dtype) :
  exists c, 0 <= c /\ np.dtype_max dt + 1 = 2 ^ c.
Proof.
  exists (if np.dtype_signed dt then np.dtype_bits dt - 1 else np.dtype_bits dt).
  destruct dt; vm_compute; split; congruence.
Qed.

(** A type that holds the weight [2^(m-1)] holds every number of [m] bits. *)
Lemma holds_bits_values (dt : np.dtype) (m : Z) :
  0 <= m -> holds_bits dt m -> 2 ^ m <= np.dtype_max dt + 1.
Proof.
  intros Hm H. unfold holds_bits in H.
  destruct (dtype_max_power dt) as [c [Hc E]]. rewrite E.
  destruct (Z.eq_dec m 0) as [->|Hne].
  - change (2 ^ 0) with 1. pose proof (Z.pow_pos_nonneg 2 c). lia.
  - apply Z.pow_le_mono_r; [lia|].
    assert (Hlt : 2 ^ (m - 1) < 2 ^ c) by lia.
    apply Z.pow_lt_mono_r_iff in Hlt; lia.
Qed.

Lemma holds_bits_weight (dt : np.dtype) (m i : Z) :
  holds_bits dt m -> 0 <= i < m -> np.in_range dt (2 ^ i) = true.
Proof.
  intros H Hi. apply in_range_spec. unfold holds_bits in H.
  pose proof (dtype_min_nonpos dt). pose proof (Z.pow_pos_nonneg 2 i).
  assert (2 ^ i <= 2 ^ (m - 1)) by (apply Z.pow_le_mono_r; lia).
  lia.
Qed.

Lemma holds_bits_dec (dt : np.dtype) (m : Z) : {holds_bits dt m} + {~ holds_bits dt m}.
Proof.
  unfold holds_bits.
  destruct (Z_le_gt_dec (2 ^ (m - 1)) (np.dtype_max dt)); [left | right]; lia.
Qed.

(** ** The conversion of a typed array *)

Lemma binary_to_decimal_round (dt : np.dtype) (x i acc : Z) :
  np.in_range dt (2 ^ i) = true ->
  match np.scalar_mul_pyint dt x (2 ^ i) with
  | Raise e => Raise e
  | Ok term => Ok (np.scalar_add dt (np.wrap dt acc) term)
  end = Ok (np.wrap dt (acc + x * 2 ^ i)).
Proof.
  intros H. unfold np.scalar_mul_pyint, np.scalar_add. rewrite H.
  now rewrite wrap_add.
Qed.

(** The rounds of the loop on the indices [indices], from the running value
    [wrap acc], as long as every weight fits the element type. *)
Lemma binary_to_decimal_rounds (dt : np.dtype) (items indices : list Z) :
  Forall (fun i => np.in_range dt (2 ^ i) = true) indices ->
  forall acc,
    fold_left
      (fun decimal i =>
         match decimal with
         | Raise e => Raise e
         | Ok decimal =>
             match np.scalar_mul_pyint dt
                     (nth (Z.to_nat (len items - i - 1)) items 0) (2 ^ i) with
             | Raise e => Raise e
             | Ok term => Ok (np.scalar_add dt decimal term)
             end
         end)
      indices (Ok (np.wrap dt acc)) =
    Ok (np.wrap dt
          (fold_left
             (fun decimal i =>
                decimal + nth (Z.to_nat (len items - i - 1)) items 0 * 2 ^ i)
             indices acc)).
Proof.
  induction 1 as [|i indices Hi _ IH]; intros acc; [reflexivity|].
  cbn [fold_left]. rewrite binary_to_decimal_round by exact Hi. apply IH.
Qed.

(** When the element type holds numbers of as many bits as the array is
    long, nothing is raised and the value is the positional sum, wrapped. *)
Lemma binary_to_decimal_fits (dt : np.dtype) (items : list Z) :
  holds_bits dt (len items) ->
  _binary_to_decimal (np.mk_int_array dt items) =
    Ok (np.wrap dt (msb_first_value items)).
Proof.
  intros H. unfold _binary_to_decimal. cbn [np.dtype_of np.items].
  rewrite <- positional_value_msb_first. unfold positional_value.
  rewrite <- binary_to_decimal_rounds.
  - rewrite wrap_in_range; [reflexivity|].
    pose proof (dtype_min_nonpos dt).
    destruct (dtype_max_power dt) as [c [Hc E]].
    pose proof (Z.pow_pos_nonneg 2 c). lia.
  - apply Forall_forall. intros i Hi. apply range_In in Hi.
    now apply (holds_bits_weight dt (len items)).
Qed.

(** On bits the value is the most-significant-bit-first value itself. *)
Lemma binary_to_decimal_bits (dt : np.dtype) (bits : list Z) :
  Forall binary bits -> holds_bits dt (len bits) ->
  _binary_to_decimal (np.mk_int_array dt bits) = Ok (msb_first_value bits).
Proof.
  intros Hb H. rewrite binary_to_decimal_fits by exact H. f_equal.
  apply wrap_in_range.
  pose proof (msb_first_value_bounds bits Hb).
  pose proof (holds_bits_values dt (len bits) (len_nonneg bits) H).
  pose proof (dtype_min_nonpos dt). lia.
Qed.

Lemma binary_to_decimal_rounds_outcome (dt : np.dtype) (items indices : list Z) :
  forall r,
    (is_Ok r \/ r = Raise OverflowError) ->
    let r' :=
      fold_left
        (fun decimal i =>
           match decimal with
           | Raise e => Raise e
           | Ok decimal =>
               match np.scalar_mul_pyint dt
                       (nth (Z.to_nat (len items - i - 1)) items 0) (2 ^ i) with
               | Raise e => Raise e
               | Ok term => Ok (np.scalar_add dt decimal term)
               end
           end)
        indices r in
    is_Ok r' \/ r' = Raise OverflowError.
Proof.
  induction indices as [|i indices IH]; intros r Hr; [exact Hr|].
  cbn [fold_left]. apply IH.
  destruct Hr as [[d ->]| ->]; [|now right].
  unfold np.scalar_mul_pyint. destruct (np.in_range dt (2 ^ i)).
  - left. eexists. reflexivity.
  - now right.
Qed.

(** When the greatest weight does not fit the element type, the conversion
    raises [OverflowError]. *)
Lemma binary_to_decimal_overflow (dt : np.dtype) (items : list Z) :
  ~ holds_bits dt (len items) ->
  _binary_to_decimal (np.mk_int_array dt items) = Raise OverflowError.
Proof.
  intros H. unfold _binary_to_decimal. cbn [np.dtype_of np.items].
  assert (Hlen : 0 < len items).
  { destruct (Z.eq_dec (len items) 0) as [E|E];
      [|pose proof (len_nonneg items); lia].
    exfalso. apply H. unfold holds_bits. rewrite E.
    destruct (dtype_max_power dt) as [c [Hc Ec]].
    pose proof (Z.pow_pos_nonneg 2 c). change (2 ^ (0 - 1)) with 0. lia. }
  assert (E : range (len items) = range (len items - 1) ++ [len items - 1]).
  { rewrite <- range_snoc by lia. f_equal. lia. }
  rewrite E, fold_left_app. cbn [fold_left].
  destruct (binary_to_decimal_rounds_outcome dt items (range (len items - 1))
              (Ok 0) ltac:(left; now exists 0)) as [[d ->]| ->];
    [|reflexivity].
  unfold np.scalar_mul_pyint.
  replace (np.in_range dt (2 ^ (len items - 1))) with false; [reflexivity|].
  symmetry. apply not_true_is_false. intros Hr. apply in_range_spec in Hr.
  apply H. unfold holds_bits. lia.
Qed.

(** ** The rows of a valid dependency matrix *)

Lemma valid_row (n k : Z) (dm : np.ndarray Z) (i : Z) :
  0 <= k < n -> valid_dependency_matrix n k dm -> 0 <= i < n ->
  let row := nth (Z.to_nat i) (np.rows dm) [] in
  getitem (np.rows dm) i = Ok row /\
  len row = n /\ Forall binary row /\ lsum row = k + 1 /\
  nth (Z.to_nat i) row 0 = 1.
Proof.
  intros Hk [[Hlen [Hc Hrows]] Hshape Hbin Htrace Hsums] Hi row.
  rewrite Hshape in *. cbn [fst snd] in *.
  assert (Hin : In row (np.rows dm)).
  { apply nth_In. unfold len in Hlen. lia. }
  split; [apply getitem_ok; lia|].
  split; [now apply (proj1 (Forall_forall _ _) Hrows)|].
  split; [now apply (proj1 (Forall_forall _ _) Hbin)|].
  split; [now apply (proj1 (Forall_forall _ _) Hsums)|].
  unfold np.trace, np.diagonal in Htrace. rewrite Hshape in Htrace.
  cbn [fst snd] in Htrace. rewrite Z.min_id in Htrace.
  set (diag := map _ (range n)) in Htrace.
  assert (Hd : Forall (fun x => x = 1) diag).
  { apply lsum_binary_full.
    - apply Forall_forall. intros x Hx. apply in_map_iff in Hx.
      destruct Hx as [j [<- _]]. apply nth_binary. now apply nth_Forall_binary.
    - rewrite Htrace. unfold diag. rewrite len_map, range_length. lia. }
  rewrite Forall_forall in Hd. apply Hd. unfold diag.
  apply in_map_iff. exists i. split; [reflexivity | now apply range_In].
Qed.

Lemma getitem2_ok {A} (a : np.ndarray A) (r c i j : Z) :
  np.wf a -> np.shape a = (r, c) -> 0 <= i < r -> 0 <= j < c ->
  is_Ok (np.getitem2 a i j).
Proof.
  intros [Hlen [_ Hrows]] Hs Hi Hj. rewrite Hs in *. cbn [fst snd] in *.
  unfold np.getitem2.
  rewrite (getitem_ok (np.rows a) i []) by lia.
  assert (Hin : In (nth (Z.to_nat i) (np.rows a) []) (np.rows a)).
  { apply nth_In. unfold len in Hlen. lia. }
  rewrite Forall_forall in Hrows. specialize (Hrows _ Hin).
  destruct (nth (Z.to_nat i) (np.rows a) []) as [|x row] eqn:E.
  - unfold len in Hrows. cbn in Hrows. lia.
  - rewrite (getitem_ok (x :: row) j x) by lia. eexists. reflexivity.
Qed.

(** ** The evaluation on a valid landscape *)

Lemma getitem_In {A} (l : list A) (i : Z) (a : A) :
  getitem l i = Ok a -> In a l.
Proof.
  unfold getitem. destruct (_ && _); [|discriminate].
  destruct (nth_error l _) eqn:E; [|discriminate].
  intros [= ->]. eapply nth_error_In. exact E.
Qed.

Lemma take_inv {A} (a : list A) (indices : list Z) (xs : list A) :
  np.take a indices = Ok xs ->
  len xs = len indices /\ Forall (fun x => In x a) xs.
Proof.
  revert xs. induction indices as [|i indices IH]; intros xs.
  - intros [= <-]. split; [reflexivity | constructor].
  - cbn [np.take]. destruct (getitem a i) as [x|e] eqn:Ex; [|discriminate].
    destruct (np.take a indices) as [xs'|e]; [|discriminate].
    intros [= <-]. destruct (IH xs' eq_refl) as [Hl Hin].
    rewrite !len_cons, Hl. split; [reflexivity|].
    constructor; [now apply getitem_In in Ex | exact Hin].
Qed.

Lemma holds_bits_int64 (m : Z) : m <= 63 -> holds_bits np.int64 m.
Proof.
  intros H. unfold holds_bits.
  change (np.dtype_max np.int64) with 9223372036854775807.
  destruct (Z.le_gt_cases 0 (m - 1)) as [Hm|Hm].
  - assert (Hp : 2 ^ (m - 1) <= 2 ^ 62) by (apply Z.pow_le_mono_r; lia).
    change (2 ^ 62) with 4611686018427387904 in Hp. lia.
  - rewrite Z.pow_neg_r by lia. lia.
Qed.

Section Evaluation.

Context {RS : RandomSource}.

Variables (n k : Z) (dm : np.ndarray Z) (fm : np.ndarray float).
Variable dt : np.dtype.
Variable solution : list Z.

Hypothesis Hvalid : valid_landscape n k dm fm.
Hypothesis Hlength : len solution = n.
Hypothesis Hbits : Forall binary solution.
Hypothesis Hholds : holds_bits dt (k + 1).

Local Abbreviation W g s := (mk_world g s (landscape n k dm fm)).
Local Abbreviation typed := (np.mk_int_array dt solution).

(** Row [i] of the loop, before the solution is read: the rolled indices are
    the specification's pattern, which holds [K + 1] columns of the matrix,
    of which [i] is the first. *)
Lemma row_pattern_run (g : namespace) (s : rng) (i : Z) :
  0 <= i < n ->
  rolled_dependency_indicies i (W g s) = (Ok (spec_pattern dm i), W g s) /\
  (len (spec_pattern dm i) = k + 1 /\ hd_error (spec_pattern dm i) = Some i) /\
  Forall (fun j => 0 <= j < n) (spec_pattern dm i).
Proof.
  intros Hi. destruct Hvalid as [Hk Hdm Hfwf Hfs].
  destruct (valid_row n k dm i Hk Hdm Hi) as [Hget [Hrl [Hrb [Hrs Hdiag]]]].
  set (row := nth (Z.to_nat i) (np.rows dm) []) in *.
  assert (Hin : In i (ones_from 0 row)).
  { apply ones_from_In; [lia | now rewrite Z.sub_0_r]. }
  destruct (first_position i _ Hin) as [l1 [l2 [El [Hnot Epos]]]].
  assert (Hpat : spec_pattern dm i = (i :: l2) ++ l1).
  { unfold spec_pattern. fold row. rewrite El. now apply rotate_to_front_spec. }
  split; [|split; [split|]].
  - unfold rolled_dependency_indicies, dependency_indicies. run.
    rewrite Hget. run. rewrite argwhere_ones, Epos. run.
    now rewrite El, roll_to_first, Hpat.
  - rewrite Hpat, len_app, Z.add_comm, <- len_app, <- El.
    now rewrite ones_from_length.
  - now rewrite Hpat.
  - rewrite Hpat. apply Forall_forall. intros j Hj.
    assert (Hj' : In j (ones_from 0 row)).
    { rewrite El. apply in_app_iff. apply in_app_iff in Hj.
      destruct Hj as [Hj|Hj]; [right | left]; assumption. }
    apply ones_from_bounds in Hj'. lia.
Qed.

(** Row [i] of the loop on a solution of length [N]: the gather succeeds,
    and the outcome is that of the conversion of the bits gathered. *)
Lemma row_decimal_outcome (g : namespace) (s : rng) (i : Z) :
  0 <= i < n ->
  row_decimal typed i (W g s) =
    (_binary_to_decimal
       (np.mk_int_array dt
          (map (fun j => nth (Z.to_nat j) solution 0) (spec_pattern dm i))),
     W g s).
Proof.
  intros Hi. destruct (row_pattern_run g s i Hi) as [Hrolled [_ Hcols]].
  unfold row_decimal. unfold bind at 1. rewrite Hrolled. run.
  unfold np.take_array. cbn [np.items np.dtype_of].
  rewrite take_ok; [reflexivity|].
  eapply Forall_impl; [|exact Hcols]. intros j Hj. cbn beta in *. lia.
Qed.

Lemma gathered_bits (i : Z) :
  Forall binary (map (fun j => nth (Z.to_nat j) solution 0) (spec_pattern dm i)).
Proof.
  apply Forall_forall. intros x Hx. apply in_map_iff in Hx.
  destruct Hx as [j [<- _]]. now apply nth_binary.
Qed.

(** When the element type holds numbers of [K + 1] bits, the index computed
    is [d_i], a [(K + 1)]-bit number. *)
Lemma row_decimal_run (g : namespace) (s : rng) (i : Z) :
  0 <= i < n ->
  rolled_dependency_indicies i (W g s) = (Ok (spec_pattern dm i), W g s) /\
  row_decimal typed i (W g s) = (Ok (spec_decimal dm solution i), W g s) /\
  (len (spec_pattern dm i) = k + 1 /\ hd_error (spec_pattern dm i) = Some i) /\
  0 <= spec_decimal dm solution i < 2 ^ (k + 1).
Proof.
  intros Hi. destruct (row_pattern_run g s i Hi) as [Hrolled [[Hplen Hhd] Hcols]].
  split; [exact Hrolled|]. split; [|split; [now split|]].
  - rewrite row_decimal_outcome by exact Hi.
    rewrite binary_to_decimal_bits; [reflexivity | apply gathered_bits |].
    now rewrite len_map, Hplen.
  - unfold spec_decimal.
    rewrite <- Hplen, <- (len_map (fun j => nth (Z.to_nat j) solution 0)).
    apply msb_first_value_bounds, gathered_bits.
Qed.

(** When it does not, the conversion of the first row already raises. *)
Lemma row_decimal_overflow (g : namespace) (s : rng) (i : Z) :
  0 <= i < n -> ~ holds_bits dt (k + 1) ->
  row_decimal typed i (W g s) = (Raise OverflowError, W g s).
Proof.
  intros Hi Hno. destruct (row_pattern_run g s i Hi) as [_ [[Hplen _] _]].
  rewrite row_decimal_outcome by exact Hi.
  rewrite binary_to_decimal_overflow; [reflexivity|].
  now rewrite len_map, Hplen.
Qed.

(** Whatever the element type: an index that is computed is a
    [(K + 1)]-bit number, and the lookup of it succeeds. *)
Lemma row_decimal_computed (g : namespace) (s : rng) (i d : Z) (w' : world) :
  0 <= i < n ->
  row_decimal typed i (W g s) = (Ok d, w') ->
  0 <= d < 2 ^ (k + 1) /\ is_Ok (np.getitem2 fm i d).
Proof.
  intros Hi Hrun. destruct (row_pattern_run g s i Hi) as [_ [[Hplen _] _]].
  rewrite row_decimal_outcome in Hrun by exact Hi.
  assert (Hd : 0 <= d < 2 ^ (k + 1)).
  { destruct (holds_bits_dec dt (k + 1)) as [Hyes|Hno].
    - rewrite binary_to_decimal_bits in Hrun;
        [|apply gathered_bits | now rewrite len_map, Hplen].
      injection Hrun as <- _.
      rewrite <- Hplen, <- (len_map (fun j => nth (Z.to_nat j) solution 0)).
      apply msb_first_value_bounds, gathered_bits.
    - rewrite binary_to_decimal_overflow in Hrun; [discriminate|].
      now rewrite len_map, Hplen. }
  split; [exact Hd|]. destruct Hvalid as [_ _ Hfwf Hfs].
  now apply (getitem2_ok fm n (2 ^ (k + 1))).
Qed.

Lemma row_lookup_run (g : namespace) (s : rng) (i : Z) :
  0 <= i < n ->
  exists d,
    row_decimal typed i (W g s) = (Ok d, W g s) /\
    0 <= d < 2 ^ (k + 1) /\
    is_Ok (np.getitem2 fm i d).
Proof.
  intros Hi.
  destruct (row_decimal_run g s i Hi) as [_ [Hrun [_ Hd]]].
  exists (spec_decimal dm solution i). split; [exact Hrun|]. split; [exact Hd|].
  destruct Hvalid as [_ _ Hfwf Hfs].
  now apply (getitem2_ok fm n (2 ^ (k + 1))).
Qed.

Lemma add_contribution_run (g : namespace) (s : rng) (fitness : float) (i : Z) :
  0 <= i < n ->
  exists c,
    np.getitem2 fm i (spec_decimal dm solution i) = Ok c /\
    add_contribution typed fitness i (W g s) = (Ok (fitness + c)%float, W g s).
Proof.
  intros Hi.
  destruct (row_lookup_run g s i Hi) as [d [Hrun [_ [c Hc]]]].
  destruct (row_decimal_run g s i Hi) as [_ [Hrun' _]].
  rewrite Hrun' in Hrun. injection Hrun as <-.
  exists c. split; [exact Hc|].
  unfold add_contribution. unfold bind at 1. rewrite Hrun'.
  run. now rewrite Hc.
Qed.

Lemma contributions_run (g : namespace) (s : rng) (positions : list Z) :
  Forall (fun i => 0 <= i < n) positions ->
  forall fitness,
  exists contributions,
    Forall2 (fun i c => np.getitem2 fm i (spec_decimal dm solution i) = Ok c)
            positions contributions /\
    for_each positions (add_contribution typed) fitness (W g s) =
      (Ok (fold_left PrimFloat.add contributions fitness), W g s).
Proof.
  induction 1 as [|i positions Hi _ IH]; intros fitness.
  - exists []. split; [constructor | reflexivity].
  - destruct (add_contribution_run g s fitness i Hi) as [c [Hc Hrun]].
    destruct (IH (fitness + c)%float) as [cs [Hcs Hloop]].
    exists (c :: cs). split; [now constructor|].
    cbn [for_each fold_left]. unfold bind. rewrite Hrun.
    exact Hloop.
Qed.

(** The value returned is the sum, taken in the order of the positions and
    starting from zero, of the entries [fitness_mapping[i, d_i]]; every
    lookup succeeds and the state is left as it was. *)
Lemma calculate_fitness_run (g : namespace) (s : rng) :
  Forall (fun i => len (spec_pattern dm i) = k + 1 /\
                   hd_error (spec_pattern dm i) = Some i) (range n) /\
  exists contributions,
    Forall2 (fun i c => np.getitem2 fm i (spec_decimal dm solution i) = Ok c)
            (range n) contributions /\
    calculate_fitness typed (W g s) =
      (Ok (fold_left PrimFloat.add contributions 0%float), W g s).
Proof.
  split.
  { apply Forall_forall. intros i Hi. apply range_In in Hi.
    now destruct (row_pattern_run g s i Hi) as [_ [H _]]. }
  destruct (contributions_run g s (range n)) with (fitness := 0%float)
    as [cs [Hcs Hloop]].
  { apply Forall_forall. intros i Hi. now apply range_In. }
  exists cs. split; [exact Hcs|].
  unfold calculate_fitness. run. exact Hloop.
Qed.

End Evaluation.

(** When the element type of the solution does not hold [2^K], the first
    row of the loop raises [OverflowError], and the state is left as it
    was. *)
Lemma calculate_fitness_overflow
      {RS : RandomSource} (n k : Z) (dm : np.ndarray Z) (fm : np.ndarray float)
      (dt : np.dtype) (solution : list Z) (g : namespace) (s : rng) :
  valid_landscape n k dm fm -> len solution = n ->
  ~ holds_bits dt (k + 1) ->
  calculate_fitness (np.mk_int_array dt solution)
    (mk_world g s (landscape n k dm fm)) =
    (Raise OverflowError, mk_world g s (landscape n k dm fm)).
Proof.
  intros Hv Hl Hno. pose proof Hv as [Hk _ _ _].
  unfold calculate_fitness. run.
  unfold range. replace (Z.to_nat n) with (S (Z.to_nat (n - 1))) by lia.
  cbn [seq map for_each Z.of_nat]. unfold bind at 1.
  unfold add_contribution. unfold bind at 1.
  now rewrite (row_decimal_overflow n k dm fm dt solution Hv Hl g s 0)
    by (lia || assumption).
Qed.

(** ** The bound on the index without the diagonal invariant *)

Section IndexBound.

Context {RS : RandomSource}.

(** Binary rows that sum to [K + 1] and a binary solution are enough for the
    bound: whenever the loop body computes an index at all, for whatever
    row and element type, that index is below [2^(K+1)]. *)
Lemma row_decimal_bound (k : Z) (dm : np.ndarray Z) (solution : np.int_array)
      (i d : Z) (w w' : world) :
  self_dependency_matrix (self w) = Some dm ->
  Forall (Forall binary) (np.rows dm) ->
  Forall (fun r => lsum r = k + 1) (np.rows dm) ->
  Forall binary (np.items solution) ->
  row_decimal solution i w = (Ok d, w') ->
  0 <= d < 2 ^ (k + 1).
Proof.
  intros Hdm Hbin Hsums Hsol.
  unfold row_decimal, rolled_dependency_indicies, dependency_indicies. run.
  rewrite Hdm. run.
  destruct (getitem (np.rows dm) i) as [row|e] eqn:Erow; [|discriminate].
  run. rewrite argwhere_ones.
  destruct (getitem (np.argwhere _) 0) as [position|e]; [|discriminate].
  run. unfold np.take_array.
  destruct (np.take (np.items solution) _) as [substring|e] eqn:Etake;
    [|discriminate].
  run.
  apply getitem_In in Erow.
  rewrite Forall_forall in Hbin, Hsums.
  apply take_inv in Etake. destruct Etake as [Hlen Hin].
  rewrite roll_length, (ones_from_length _ _ (Hbin _ Erow)), (Hsums _ Erow) in Hlen.
  assert (Hsub : Forall binary substring).
  { eapply Forall_impl; [|exact Hin].
    intros x Hx. rewrite Forall_forall in Hsol. now apply Hsol. }
  destruct (holds_bits_dec (np.dtype_of solution) (len substring)) as [Hyes|Hno].
  - rewrite (binary_to_decimal_bits _ _ Hsub Hyes). intros [= <- _].
    rewrite <- Hlen. now apply msb_first_value_bounds.
  - now rewrite (binary_to_decimal_overflow _ _ Hno).
Qed.

End IndexBound.

(** The landscape of the scenario [N = 4], [K = 0]. *)
Lemma scenario_4_0_valid :
  valid_landscape 4 0
    (array2 [[1; 0; 0; 0]; [0; 1; 0; 0]; [0; 0; 1; 0]; [0; 0; 0; 1]])
    (array2 [[0; 1]; [1; 0]; [0; 1]; [1; 0]]%float).
Proof.
  constructor; [lia | constructor | | reflexivity].
  - unfold np.wf. cbn. repeat split; [lia | solve_bits].
  - reflexivity.
  - cbn. solve_bits.
  - reflexivity.
  - cbn. solve_bits.
  - unfold np.wf. cbn. repeat split; [lia | solve_bits].
Qed.

(** The landscape [N = 8], [K = 7]: every position depends on all. *)
Lemma scenario_8_7_valid :
  valid_landscape 8 7
    (array2 (repeat (repeat 1 8%nat) 8%nat))
    (np.from_function 8 256 (fun _ _ => 30%float)).
Proof.
  constructor; [lia | | apply from_function_wf | reflexivity].
  replace (array2 (repeat (repeat 1 8%nat) 8%nat)) with (sequential_matrix 8 7)
    by (vm_compute; reflexivity).
  apply sequential_matrix_valid. lia.
Qed.

(** C10.  On a landscape whose dependency matrix satisfies the validation
    invariants and whose fitness mapping has shape [(N, 2^(K+1))], and for a
    binary solution of length [N], of whatever integer element type: every
    index [d] that the loop of [calculate_fitness] computes for a position
    [i] satisfies [0 <= d < 2^(K+1)], and the lookup [fitness_mapping[i, d]]
    succeeds.  The index is computed exactly when the element type of the
    solution holds [2^K]; otherwise the conversion raises [OverflowError]
    and no lookup takes place. *)
Theorem fitness_lookup_in_bounds
        {RS : RandomSource} (n k : Z) (dm : np.ndarray Z) (fm : np.ndarray float)
        (dt : np.dtype) (solution : list Z) (g : namespace) (s : rng) (i : Z) :
  valid_landscape n k dm fm ->
  len solution = n -> Forall binary solution ->
  0 <= i < n ->
  let w := mk_world g s (landscape n k dm fm) in
  (forall d w',
     row_decimal (np.mk_int_array dt solution) i w = (Ok d, w') ->
     0 <= d < 2 ^ (k + 1) /\ is_Ok (np.getitem2 fm i d)) /\
  (holds_bits dt (k + 1) ->
   exists d,
     row_decimal (np.mk_int_array dt solution) i w = (Ok d, w) /\
     0 <= d < 2 ^ (k + 1) /\
     is_Ok (np.getitem2 fm i d)) /\
  (~ holds_bits dt (k + 1) ->
   row_decimal (np.mk_int_array dt solution) i w = (Raise OverflowError, w)).
Proof.
  intros Hv Hl Hb Hi w. split; [|split].
  - intros d w' Hrun.
    now apply (row_decimal_computed n k dm fm dt solution Hv Hl Hb g s i d w').
  - intros Hh. now apply row_lookup_run.
  - intros Hno. now apply row_decimal_overflow.
Qed.

Lemma fitness_lookup_in_bounds_witness :
  let dm := array2 [[1; 0; 0; 0]; [0; 1; 0; 0]; [0; 0; 1; 0]; [0; 0; 0; 1]] in
  let fm := array2 [[0; 1]; [1; 0]; [0; 1]; [1; 0]]%float in
  exists d,
    row_decimal (np.mk_int_array np.int64 [1; 0; 1; 0]) 2
      (mk_world module_namespace 0 (landscape 4 0 dm fm)) =
      (Ok d, mk_world module_namespace 0 (landscape 4 0 dm fm)) /\
    0 <= d < 2 ^ (0 + 1) /\
    is_Ok (np.getitem2 fm 2 d).
Proof.
  intros dm fm.
  apply (proj1 (proj2 (@fitness_lookup_in_bounds counter_source 4 0 dm fm np.int64
                         [1; 0; 1; 0] module_namespace 0 2
                         scenario_4_0_valid eq_refl ltac:(solve_bits) ltac:(lia)))).
  apply holds_bits_int64. lia.
Defined.

(** C2 (amended).  On a valid landscape and a binary solution of length [N]
    held in an integer array whose element type holds [2^K],
    [calculate_fitness] returns the sum over the positions [i], in order and
    starting from zero, of [fitness_mapping[i, d_i]], where [d_i] is the
    most-significant-bit-first value of the bits of the solution at the
    dependency indices of row [i] rotated so that [i] is first (there are
    [K + 1] of them); every lookup is within bounds.  For
    [N = 4], [K = 0], the identity matrix, the mapping
    [[0, 1], [1, 0], [0, 1], [1, 0]] and the solution [1, 0, 1, 0] the value
    is 4.0, whatever the element type. *)
Theorem calculate_fitness_is_sum_of_contributions {RS : RandomSource} :
  (forall n k dm fm dt solution g s,
     valid_landscape n k dm fm ->
     len solution = n -> Forall binary solution ->
     holds_bits dt (k + 1) ->
     Forall (fun i => len (spec_pattern dm i) = k + 1 /\
                      hd_error (spec_pattern dm i) = Some i) (range n) /\
     exists contributions,
       Forall2 (fun i c => np.getitem2 fm i (spec_decimal dm solution i) = Ok c)
               (range n) contributions /\
       calculate_fitness (np.mk_int_array dt solution)
         (mk_world g s (landscape n k dm fm)) =
         (Ok (fold_left PrimFloat.add contributions 0%float),
          mk_world g s (landscape n k dm fm))) /\
  (forall dt g s,
     let dm := array2 [[1; 0; 0; 0]; [0; 1; 0; 0]; [0; 0; 1; 0]; [0; 0; 0; 1]] in
     let fm := array2 [[0; 1]; [1; 0]; [0; 1]; [1; 0]]%float in
     calculate_fitness (np.mk_int_array dt [1; 0; 1; 0])
       (mk_world g s (landscape 4 0 dm fm)) =
       (Ok 4%float, mk_world g s (landscape 4 0 dm fm))).
Proof.
  split.
  - intros n k dm fm dt solution g s Hv Hl Hb Hh. now apply calculate_fitness_run.
  - intros dt g s dm fm. destruct dt; vm_compute; reflexivity.
Qed.

Lemma calculate_fitness_is_sum_of_contributions_witness :
  let dm := array2 [[1; 0; 0; 0]; [0; 1; 0; 0]; [0; 0; 1; 0]; [0; 0; 0; 1]] in
  let fm := array2 [[0; 1]; [1; 0]; [0; 1]; [1; 0]]%float in
  Forall (fun i => len (spec_pattern dm i) = 0 + 1 /\
                   hd_error (spec_pattern dm i) = Some i) (range 4) /\
  exists contributions,
    Forall2 (fun i c => np.getitem2 fm i (spec_decimal dm [1; 0; 1; 0] i) = Ok c)
            (range 4) contributions /\
    calculate_fitness (np.mk_int_array np.int8 [1; 0; 1; 0])
      (mk_world module_namespace 0 (landscape 4 0 dm fm)) =
      (Ok (fold_left PrimFloat.add contributions 0%float),
       mk_world module_namespace 0 (landscape 4 0 dm fm)).
Proof.
  intros dm fm.
  apply (proj1 (@calculate_fitness_is_sum_of_contributions counter_source)
               4 0 dm fm np.int8 [1; 0; 1; 0] module_namespace 0).
  - exact scenario_4_0_valid.
  - reflexivity.
  - solve_bits.
  - vm_compute. discriminate.
Defined.

(** C2, as stated, fails.  The landscape [N = 8], [K = 7] (all-ones matrix,
    a fitness mapping of shape [(8, 256)]) is valid and [1, 0, 0, 0, 0, 0,
    0, 1] is a binary solution of length 8; held in an [int8] array, its
    conversion multiplies an [int8] scalar by the Python integer [2**7],
    which is out of bounds for [int8]: [calculate_fitness] raises
    [OverflowError] and returns no sum. *)
Lemma narrow_solution_overflows :
  let dm := array2 (repeat (repeat 1 8%nat) 8%nat) in
  let fm := np.from_function 8 256 (fun _ _ => 30%float) in
  let solution := [1; 0; 0; 0; 0; 0; 0; 1] in
  let w := mk_world module_namespace 0 (landscape 8 7 dm fm) in
  valid_landscape 8 7 dm fm /\
  len solution = 8 /\ Forall binary solution /\
  calculate_fitness (np.mk_int_array np.int8 solution) w =
    (Raise OverflowError, w) /\
  ~ is_Ok (fst (calculate_fitness (np.mk_int_array np.int8 solution) w)).
Proof.
  intros dm fm solution w.
  assert (E : calculate_fitness (np.mk_int_array np.int8 solution) w =
              (Raise OverflowError, w)) by (vm_compute; reflexivity).
  split; [exact scenario_8_7_valid|]. split; [reflexivity|].
  split; [unfold solution; solve_bits|]. split; [exact E|].
  rewrite E. intros [v Hv]. discriminate Hv.
Qed.

(** ** The validation as a whole *)

Lemma lsum_map_lsum_const (rows : list (list Z)) (c : Z) :
  Forall (fun r => lsum r = c) rows -> lsum (map lsum rows) = c * len rows.
Proof.
  induction 1 as [|r rows Hr _ IH]; [cbn; lia|].
  cbn [map]. rewrite lsum_cons, IH, Hr, len_cons. lia.
Qed.

Lemma map_lsum_const (rows : list (list Z)) (c : Z) :
  Forall (fun r => lsum r = c) rows -> map lsum rows = repeat c (length rows).
Proof.
  induction 1 as [|r rows Hr _ IH]; [reflexivity|].
  cbn [map length repeat]. now rewrite IH, Hr.
Qed.

Section FullValidation.

Context {RS : RandomSource}.

Variables (n k : Z) (dm : np.ndarray Z).
Variable w : world.

Hypothesis Hvalid : valid_dependency_matrix n k dm.
Hypothesis HN : self_N (self w) = Some n.
Hypothesis HK : self_K (self w) = Some k.
Hypothesis Hdm : self_dependency_matrix (self w) = Some dm.

(** In a namespace without [K] the validation of a matrix that satisfies
    every invariant still ends in [NameError]. *)
Lemma check_without_global_K :
  lookup_name "K" (globals w) = None ->
  _check_dependency_matrix w = (Raise (NameError "K"), w).
Proof.
  intros Hg. destruct Hvalid as [Hwf Hshape Hbin Htrace Hsums].
  unfold _check_dependency_matrix. run. rewrite Hdm, HN. run.
  replace (np.shape_eqb (np.shape dm) (n, n)) with true
    by (symmetry; now apply shape_eqb_eq).
  run. replace (np.array_equal_int_bool dm (np.astype_bool dm)) with true
    by (symmetry; now apply binary_check_spec).
  run. rewrite Htrace, Z.eqb_refl. run. now rewrite Hg.
Qed.

(** Were the free name bound to the instance's own [K], the validation
    would accept every matrix that satisfies the invariants. *)
Lemma check_with_own_K :
  lookup_name "K" (globals w) = Some k ->
  _check_dependency_matrix w = (Ok tt, w).
Proof.
  intros Hg. destruct Hvalid as [Hwf Hshape Hbin Htrace Hsums].
  unfold _check_dependency_matrix. run. rewrite Hdm, HN. run.
  replace (np.shape_eqb (np.shape dm) (n, n)) with true
    by (symmetry; now apply shape_eqb_eq).
  run. replace (np.array_equal_int_bool dm (np.astype_bool dm)) with true
    by (symmetry; now apply binary_check_spec).
  run. rewrite Htrace, Z.eqb_refl. run. rewrite Hg. run.
  destruct Hwf as [Hlen _]. rewrite Hshape in Hlen. cbn [fst] in Hlen.
  assert (Hsum : (k =? 0) && negb (np.sum dm =? n) = false).
  { destruct (Z.eqb_spec k 0) as [->|]; [|reflexivity]. cbn [andb].
    unfold np.sum, np.sum_axis1. rewrite (lsum_map_lsum_const _ _ Hsums), Hlen.
    replace ((0 + 1) * n) with n by lia. now rewrite Z.eqb_refl. }
  rewrite Hsum. run. rewrite HK. run.
  replace (np.array_equal (np.sum_axis1 dm) (np.full_row n (k + 1))) with true.
  - reflexivity.
  - symmetry. apply array_equal_eq. unfold np.sum_axis1, np.full_row.
    rewrite (map_lsum_const _ _ Hsums). f_equal. unfold len in Hlen. lia.
Qed.

End FullValidation.

Section Setter.

Context {RS : RandomSource}.

Lemma leaves_state_bind {A B} (m : M A) (f : A -> M B) :
  leaves_state m -> (forall a, leaves_state (f a)) -> leaves_state (bind m f).
Proof.
  intros Hm Hf w. unfold bind. specialize (Hm w).
  destruct (m w) as [[a|e] w1]; cbn [snd] in Hm; subst w1;
    [apply Hf | reflexivity].
Qed.

Lemma leaves_state_getattr {A} (name : string) (field : object -> option A) :
  leaves_state (getattr name field).
Proof. intros w. unfold getattr. now destruct (field (self w)). Qed.

Lemma leaves_state_getglobal (name : string) : leaves_state (getglobal name).
Proof. intros w. unfold getglobal. now destruct (lookup_name name (globals w)). Qed.

Lemma leaves_state_raise_if (b : bool) (e : exn) : leaves_state (raise_if b e).
Proof. intros w. unfold raise_if. now destruct b. Qed.

Lemma check_leaves_state : leaves_state _check_dependency_matrix.
Proof.
  unfold _check_dependency_matrix.
  repeat first
    [ apply leaves_state_raise_if
    | apply leaves_state_getglobal
    | apply leaves_state_getattr
    | apply leaves_state_bind; [|intros ?] ].
Qed.

(** Whatever the outcome of the validation, the setter has stored its
    argument. *)
Lemma set_dependency_matrix_stores (dm : np.ndarray Z) (w : world) :
  self_dependency_matrix (self (snd (set_dependency_matrix dm w))) = Some dm.
Proof.
  unfold set_dependency_matrix, bind.
  set (w1 := snd (setattr_dependency_matrix dm w)).
  assert (E : setattr_dependency_matrix dm w = (Ok tt, w1)) by reflexivity.
  rewrite E. pose proof (check_leaves_state w1) as H.
  destruct (_check_dependency_matrix w1) as [r w2]. cbn [snd] in *. subst w2.
  reflexivity.
Qed.

End Setter.

(** * Further properties of the class *)

(** ** What the validation accepts *)

Lemma map_eq_repeat {A B} (f : A -> B) (l : list A) (c : B) (m : nat) :
  map f l = repeat c m -> Forall (fun x => f x = c) l.
Proof.
  revert m. induction l as [|x l IH]; intros m H; [constructor|].
  destruct m as [|m]; [discriminate|]. cbn [map repeat] in H.
  injection H as Hx Hl. constructor; [exact Hx | now apply (IH m)].
Qed.

Section ValidationOutcome.

Context {RS : RandomSource}.

Lemma check_sound (n k : Z) (dm : np.ndarray Z) (w : world) :
  np.wf dm ->
  self_N (self w) = Some n -> self_K (self w) = Some k ->
  self_dependency_matrix (self w) = Some dm ->
  fst (_check_dependency_matrix w) = Ok tt ->
  valid_dependency_matrix n k dm /\
  exists global_K, lookup_name "K" (globals w) = Some global_K.
Proof.
  intros Hwf HN HK Hdm. unfold _check_dependency_matrix. run.
  rewrite Hdm, HN. run.
  destruct (np.shape_eqb (np.shape dm) (n, n)) eqn:Eshape; run; [|discriminate].
  destruct (np.array_equal_int_bool dm (np.astype_bool dm)) eqn:Ebin; run;
    [|discriminate].
  destruct (np.trace dm =? n) eqn:Etrace; run; [|discriminate].
  destruct (lookup_name "K" (globals w)) as [gk|]; run; [|discriminate].
  destruct ((gk =? 0) && negb (np.sum dm =? n)); run; [discriminate|].
  rewrite HK. run.
  destruct (np.array_equal (np.sum_axis1 dm) (np.full_row n (k + 1))) eqn:Erows;
    run; [|discriminate].
  intros _. split; [|now exists gk].
  constructor.
  - exact Hwf.
  - now apply shape_eqb_eq.
  - now apply binary_check_spec.
  - now apply Z.eqb_eq.
  - apply array_equal_eq in Erows. unfold np.sum_axis1, np.full_row in Erows.
    now apply map_eq_repeat in Erows.
Qed.

(** The validation is sound in every namespace: when it returns, the matrix
    of the instance has the shape [(N, N)], holds only 0 and 1, has trace [N]
    and rows that sum to the instance's [K + 1], and the namespace binds the
    name [K]. *)
Theorem validation_accepts_only_valid_matrices
        (n k : Z) (dm : np.ndarray Z) (w : world) :
  np.wf dm ->
  self_N (self w) = Some n -> self_K (self w) = Some k ->
  self_dependency_matrix (self w) = Some dm ->
  fst (_check_dependency_matrix w) = Ok tt ->
  valid_dependency_matrix n k dm /\
  exists global_K, lookup_name "K" (globals w) = Some global_K.
Proof. apply check_sound. Qed.

(** In a namespace that binds [K] to the instance's own [K] the validation
    accepts every matrix that satisfies the invariants, and changes
    nothing. *)
Theorem validation_accepts_valid_matrices_under_own_K
        (n k : Z) (dm : np.ndarray Z) (w : world) :
  valid_dependency_matrix n k dm ->
  self_N (self w) = Some n -> self_K (self w) = Some k ->
  self_dependency_matrix (self w) = Some dm ->
  lookup_name "K" (globals w) = Some k ->
  _check_dependency_matrix w = (Ok tt, w).
Proof. intros Hv HN HK Hdm Hg. now apply (check_with_own_K n k dm). Qed.

(** The K = 0 test follows the namespace, not the instance: where the
    namespace binds [K] to 0, a matrix valid for the instance's [K > 0] is
    refused as not being the identity. *)
Theorem validation_K0_test_follows_the_namespace
        (n k : Z) (dm : np.ndarray Z) (w : world) :
  valid_dependency_matrix n k dm -> 0 < k < n ->
  self_N (self w) = Some n -> self_K (self w) = Some k ->
  self_dependency_matrix (self w) = Some dm ->
  lookup_name "K" (globals w) = Some 0 ->
  _check_dependency_matrix w = (Raise (ValueError matrix_K0_not_identity), w).
Proof.
  intros [Hwf Hshape Hbin Htrace Hsums] Hk HN HK Hdm Hg.
  unfold _check_dependency_matrix. run. rewrite Hdm, HN. run.
  replace (np.shape_eqb (np.shape dm) (n, n)) with true
    by (symmetry; now apply shape_eqb_eq).
  run. replace (np.array_equal_int_bool dm (np.astype_bool dm)) with true
    by (symmetry; now apply binary_check_spec).
  run. rewrite Htrace, Z.eqb_refl. run. rewrite Hg. run.
  destruct Hwf as [Hlen _]. rewrite Hshape in Hlen. cbn [fst] in Hlen.
  unfold np.sum, np.sum_axis1. rewrite (lsum_map_lsum_const _ _ Hsums), Hlen.
  replace ((k + 1) * n =? n) with false by nia.
  reflexivity.
Qed.

(** In the module as it stands a construction with a supplied dependency
    matrix never succeeds: it ends in a [ValueError] or in the [NameError]
    of the free name [K]. *)
Theorem supplied_matrix_never_constructs
        (N K : option Z) (a : array_arg) (fm : option (np.ndarray float)) (s : rng) :
  is_ValueError (fst (construct module_namespace N K (Some a) fm s)) \/
  fst (construct module_namespace N K (Some a) fm s) = Raise (NameError "K").
Proof.
  unfold construct, __init__, _check_dependency_matrix.
  destruct N as [n|]; [|left; eexists; reflexivity].
  destruct K as [k|]; [|left; eexists; reflexivity].
  run. destruct (k >=? n); [left; eexists; reflexivity|]. run.
  destruct (np.shape_eqb _ _); [|left; eexists; reflexivity]. run.
  destruct (np.array_equal_int_bool _ _); [|left; eexists; reflexivity]. run.
  destruct (np.trace _ =? n); [|left; eexists; reflexivity]. run.
  right. reflexivity.
Qed.

(** The setter changes the dependency matrix of the instance and nothing
    else, whether the validation that follows accepts the matrix or not; its
    outcome is that of the validation of the instance so changed. *)
Theorem set_dependency_matrix_effect (dm : np.ndarray Z) (w : world) :
  let w' := mk_world (globals w) (rng_state w)
              (mk_object (self_N (self w)) (self_K (self w)) (Some dm)
                         (self_fitness_mapping (self w))) in
  set_dependency_matrix dm w = (fst (_check_dependency_matrix w'), w').
Proof.
  intros w'. unfold set_dependency_matrix, bind.
  change (setattr_dependency_matrix dm w) with (Ok tt, w').
  pose proof (check_leaves_state w') as H.
  destruct (_check_dependency_matrix w') as [r w2]. cbn [fst snd] in *.
  now subst w2.
Qed.

End ValidationOutcome.

Lemma validation_accepts_only_valid_matrices_witness :
  let dm := array2 [[1; 1]; [1; 1]] in
  let w := mk_world [("K"%string, 1)] 0
             (landscape 2 1 dm (array2 [[0; 0; 0; 0]; [0; 0; 0; 0]]%float)) in
  valid_dependency_matrix 2 1 dm /\
  exists global_K, lookup_name "K" (globals w) = Some global_K.
Proof.
  intros dm w.
  apply (@validation_accepts_only_valid_matrices counter_source 2 1 dm w).
  - unfold np.wf. cbn. repeat split; [lia | solve_bits].
  - reflexivity.
  - reflexivity.
  - reflexivity.
  - vm_compute. reflexivity.
Defined.

Lemma sequential_2_1_valid : valid_dependency_matrix 2 1 (array2 [[1; 1]; [1; 1]]).
Proof.
  constructor.
  - unfold np.wf. cbn. repeat split; [lia | solve_bits].
  - reflexivity.
  - cbn. solve_bits.
  - reflexivity.
  - cbn. solve_bits.
Qed.

Lemma validation_accepts_valid_matrices_under_own_K_witness :
  let dm := array2 [[1; 1]; [1; 1]] in
  let w := mk_world [("K"%string, 1)] 0
             (landscape 2 1 dm (array2 [[0; 0; 0; 0]; [0; 0; 0; 0]]%float)) in
  _check_dependency_matrix w = (Ok tt, w).
Proof.
  intros dm w.
  apply (@validation_accepts_valid_matrices_under_own_K counter_source 2 1 dm w);
    [exact sequential_2_1_valid | reflexivity | reflexivity | reflexivity | reflexivity].
Defined.

Lemma validation_K0_test_follows_the_namespace_witness :
  let dm := array2 [[1; 1]; [1; 1]] in
  let w := mk_world [("K"%string, 0)] 0
             (landscape 2 1 dm (array2 [[0; 0; 0; 0]; [0; 0; 0; 0]]%float)) in
  _check_dependency_matrix w = (Raise (ValueError matrix_K0_not_identity), w).
Proof.
  intros dm w.
  apply (@validation_K0_test_follows_the_namespace counter_source 2 1 dm w);
    [exact sequential_2_1_valid | lia | reflexivity | reflexivity | reflexivity
    | reflexivity].
Defined.

(** ** The conversion of a bit string *)

Lemma holds_bits_one (dt : np.dtype) : holds_bits dt 1.
Proof. unfold holds_bits. destruct dt; vm_compute; discriminate. Qed.

(** The outcome of [_binary_to_decimal] on an integer array of any content.
    When the element type holds the greatest weight [2^(len-1)], the result
    is the most-significant-digit-first value of the entries, reduced modulo
    [2^bits] into the range of the element type (products and sums wrap
    around); when it does not, the conversion raises [OverflowError]. *)
Theorem binary_to_decimal_outcome (dt : np.dtype) (items : list Z) :
  (holds_bits dt (len items) ->
   _binary_to_decimal (np.mk_int_array dt items) =
     Ok (np.wrap dt (msb_first_value items))) /\
  (~ holds_bits dt (len items) ->
   _binary_to_decimal (np.mk_int_array dt items) = Raise OverflowError).
Proof.
  split; [apply binary_to_decimal_fits | apply binary_to_decimal_overflow].
Qed.

Lemma binary_to_decimal_outcome_witness :
  _binary_to_decimal (np.mk_int_array np.int64 (2 :: repeat 0 62%nat)) =
    Ok (np.wrap np.int64 (msb_first_value (2 :: repeat 0 62%nat))) /\
  np.wrap np.int64 (msb_first_value (2 :: repeat 0 62%nat)) = - 2 ^ 63.
Proof.
  split; [|vm_compute; reflexivity].
  apply (proj1 (binary_to_decimal_outcome np.int64 (2 :: repeat 0 62%nat))).
  apply holds_bits_int64. vm_compute. discriminate.
Defined.

(** On a string of bits that the element type can hold,
    [_binary_to_decimal] returns the most-significant-bit-first value of the
    string, a number below [2^len]: an index into a table with one entry per
    bit pattern. *)
Theorem binary_to_decimal_range (dt : np.dtype) (bits : list Z) :
  Forall binary bits -> holds_bits dt (len bits) ->
  _binary_to_decimal (np.mk_int_array dt bits) = Ok (msb_first_value bits) /\
  0 <= msb_first_value bits < 2 ^ len bits.
Proof.
  intros Hb Hh. split; [now apply binary_to_decimal_bits|].
  now apply msb_first_value_bounds.
Qed.

Lemma binary_to_decimal_range_witness :
  _binary_to_decimal (np.mk_int_array np.int8 [1; 0; 1]) =
    Ok (msb_first_value [1; 0; 1]) /\
  0 <= msb_first_value [1; 0; 1] < 2 ^ len [1; 0; 1].
Proof.
  apply binary_to_decimal_range; [solve_bits | vm_compute; discriminate].
Defined.

Lemma msb_first_value_injective (a b : list Z) :
  Forall binary a -> Forall binary b -> len a = len b ->
  msb_first_value a = msb_first_value b -> a = b.
Proof.
  intros Ha. revert b. induction Ha as [|x a Hx Ha IH]; intros b Hb Hlen Hv.
  - destruct b as [|y b]; [reflexivity|].
    rewrite len_cons in Hlen. pose proof (len_nonneg b). unfold len in Hlen at 1.
    cbn in Hlen. lia.
  - destruct b as [|y b].
    { rewrite len_cons in Hlen. pose proof (len_nonneg a). unfold len in Hlen at 2.
      cbn in Hlen. lia. }
    inversion Hb as [|y' b' Hy Hb']; subst.
    rewrite !len_cons in Hlen. assert (Hl : len a = len b) by lia.
    rewrite !msb_first_value_cons, Hl in Hv.
    pose proof (msb_first_value_bounds a Ha) as Ba.
    pose proof (msb_first_value_bounds b Hb') as Bb.
    rewrite Hl in Ba.
    assert (Hp : 0 < 2 ^ len b) by (apply Z.pow_pos_nonneg; [lia | apply len_nonneg]).
    assert (Hxy : x = y) by (destruct Hx as [-> | ->], Hy as [-> | ->]; lia).
    subst y. f_equal. apply IH; [exact Hb' | exact Hl | lia].
Qed.

(** Two different strings of bits of the same length, held in arrays of an
    element type that can hold them, never get the same outcome: distinct
    dependency patterns never share an entry of the fitness mapping. *)
Theorem binary_to_decimal_injective (dt : np.dtype) (a b : list Z) :
  Forall binary a -> Forall binary b -> len a = len b ->
  holds_bits dt (len a) ->
  a <> b ->
  _binary_to_decimal (np.mk_int_array dt a) <>
  _binary_to_decimal (np.mk_int_array dt b).
Proof.
  intros Ha Hb Hl Hh Hne E.
  rewrite (binary_to_decimal_bits dt a Ha Hh) in E.
  rewrite (binary_to_decimal_bits dt b Hb) in E by (now rewrite <- Hl).
  injection E as E. apply Hne. now apply msb_first_value_injective.
Qed.

Lemma binary_to_decimal_injective_witness :
  _binary_to_decimal (np.mk_int_array np.int8 [1; 0; 1]) <>
  _binary_to_decimal (np.mk_int_array np.int8 [0; 1; 1]).
Proof.
  apply binary_to_decimal_injective;
    [solve_bits | solve_bits | reflexivity | vm_compute; discriminate | discriminate].
Defined.

(** ** The matrices of a landscape *)

Lemma lsum_zero_nth (row : list Z) (j : nat) :
  Forall binary row -> lsum row = 0 -> nth j row 0 = 0.
Proof.
  intros H. revert j. induction H as [|y row Hy Hrow IH]; intros j H0;
    [now destruct j|].
  rewrite lsum_cons in H0. pose proof (lsum_binary_bounds row Hrow).
  destruct j as [|j]; cbn [nth]; [destruct Hy; lia|].
  apply IH. destruct Hy; lia.
Qed.

Lemma lsum_ge_nth (row : list Z) (i : nat) :
  Forall binary row -> nth i row 0 = 1 -> 1 <= lsum row.
Proof.
  intros H. revert i. induction H as [|y row Hy Hrow IH]; intros i Hi;
    [destruct i; discriminate|].
  rewrite lsum_cons. pose proof (lsum_binary_bounds row Hrow).
  destruct i as [|i]; cbn [nth] in Hi; [lia|].
  specialize (IH i Hi). destruct Hy; lia.
Qed.

(** A row of bits that sums to 1 holds its single 1 in one place. *)
Lemma binary_sum_one (row : list Z) :
  Forall binary row -> lsum row = 1 ->
  forall i j : nat, nth i row 0 = 1 -> j <> i -> nth j row 0 = 0.
Proof.
  induction 1 as [|x row Hx Hrow IH]; intros Hs i j Hi Hne; [now destruct j|].
  rewrite lsum_cons in Hs. pose proof (lsum_binary_bounds row Hrow) as Hb.
  destruct i as [|i], j as [|j]; cbn [nth] in *.
  - contradiction.
  - subst x. apply lsum_zero_nth; [exact Hrow | lia].
  - pose proof (lsum_ge_nth row i Hrow Hi). destruct Hx; lia.
  - pose proof (lsum_ge_nth row i Hrow Hi).
    apply (IH ltac:(destruct Hx; lia) i j Hi). congruence.
Qed.

(** For [K = 0] the invariants leave one matrix only: a valid dependency
    matrix is the identity matrix. *)
Lemma valid_K0_matrix_is_identity (n : Z) (dm : np.ndarray Z) :
  valid_dependency_matrix n 0 dm -> np.identity n = Ok dm.
Proof.
  intros Hv. pose proof Hv as [[Hlen [Hc Hrows]] Hshape Hbin Htrace Hsums].
  rewrite Hshape in *. cbn [fst snd] in *.
  assert (Hn : 0 <= n) by (rewrite <- Hlen; apply len_nonneg).
  unfold np.identity. rewrite eye_ok by exact Hn. f_equal.
  destruct dm as [sh rows]. cbn [np.shape np.rows] in *. subst sh.
  unfold np.from_function. f_equal; [f_equal; lia|].
  apply (nth_ext _ _ [] []).
  { rewrite length_map. unfold range. rewrite length_map, length_seq.
    unfold len in Hlen. lia. }
  intros i' Hi'. rewrite length_map in Hi'.
  assert (Hlr : length (range n) = Z.to_nat n)
    by (unfold range; now rewrite length_map, length_seq).
  rewrite Hlr in Hi'.
  set (i := Z.of_nat i').
  assert (Hi : 0 <= i < n) by (unfold i; lia).
  replace i' with (Z.to_nat i) by (unfold i; lia).
  rewrite nth_range by exact Hi.
  assert (Hk : 0 <= 0 < n) by lia.
  destruct (valid_row n 0 (np.mk_ndarray (n, n) rows) i Hk Hv Hi)
    as [_ [Hrl [Hrb [Hrs Hdiag]]]].
  cbn [np.rows] in *. set (row := nth (Z.to_nat i) rows []) in *.
  apply (nth_ext _ _ 0 0).
  { rewrite length_map, Hlr. unfold len in Hrl. lia. }
  intros j' Hj'. rewrite length_map, Hlr in Hj'.
  set (j := Z.of_nat j').
  assert (Hj : 0 <= j < n) by (unfold j; lia).
  replace j' with (Z.to_nat j) by (unfold j; lia).
  rewrite nth_range by exact Hj.
  destruct (Z.eqb_spec j (i + 0)) as [E|E].
  - replace j with i by lia. now rewrite Hdiag.
  - symmetry. apply (binary_sum_one row Hrb Hrs (Z.to_nat i)); [exact Hdiag | lia].
Qed.

(** When the instance has [K = 0], the only matrix the validation lets
    through is the identity matrix. *)
Theorem accepted_K0_matrix_is_identity
        {RS : RandomSource} (n : Z) (dm : np.ndarray Z) (w : world) :
  np.wf dm ->
  self_N (self w) = Some n -> self_K (self w) = Some 0 ->
  self_dependency_matrix (self w) = Some dm ->
  fst (_check_dependency_matrix w) = Ok tt ->
  np.identity n = Ok dm.
Proof.
  intros Hwf HN HK Hdm Hok. apply valid_K0_matrix_is_identity.
  now destruct (check_sound n 0 dm w Hwf HN HK Hdm Hok).
Qed.

Lemma accepted_K0_matrix_is_identity_witness :
  np.identity 2 = Ok (array2 [[1; 0]; [0; 1]]).
Proof.
  apply (@accepted_K0_matrix_is_identity counter_source 2 (array2 [[1; 0]; [0; 1]])
           (@mk_world counter_source [("K"%string, 0)] 0
              (landscape 2 0 (array2 [[1; 0]; [0; 1]])
                         (array2 [[0; 1]; [1; 0]]%float)))).
  - unfold np.wf. cbn. repeat split; [lia | solve_bits].
  - reflexivity.
  - reflexivity.
  - reflexivity.
  - vm_compute. reflexivity.
Defined.

(** ** The default matrix: wrapped sequential dependency *)

Lemma sequential_matrix_entry (n k i j : Z) :
  0 <= k < n -> 0 <= i < n -> 0 <= j < n ->
  nth (Z.to_nat j) (nth (Z.to_nat i) (np.rows (sequential_matrix n k)) []) 0 =
  if (j - i) mod n <=? k then 1 else 0.
Proof.
  intros Hk Hi Hj. unfold sequential_matrix.
  rewrite from_function_row, nth_range by assumption.
  rewrite <- (Z2Nat.id k) at 1 by lia.
  rewrite sequential_entry_closed by lia.
  now rewrite Z2Nat.id by lia.
Qed.

(** The entry [(i, j)] of the matrix built by
    [_construct_sequential_dependency_matrix] is 1 exactly when [j] is one
    of [i, i+1, ..., i+K] modulo [N]. *)
Theorem default_matrix_entries {RS : RandomSource} (n k : Z) (w : world) :
  0 <= k < n ->
  self_N (self w) = Some n -> self_K (self w) = Some k ->
  exists dm,
    _construct_sequential_dependency_matrix w = (Ok dm, w) /\
    forall i j, 0 <= i < n -> 0 <= j < n ->
      nth (Z.to_nat j) (nth (Z.to_nat i) (np.rows dm) []) 0 =
      if (j - i) mod n <=? k then 1 else 0.
Proof.
  intros Hk HN HK. exists (sequential_matrix n k). split.
  - apply construct_sequential_run; [lia | assumption | assumption].
  - intros i j Hi Hj. now apply sequential_matrix_entry.
Qed.

Lemma default_matrix_entries_witness :
  let w := mk_world module_namespace 0 (mk_object (Some 3) (Some 1) None None) in
  exists dm,
    _construct_sequential_dependency_matrix w = (Ok dm, w) /\
    forall i j, 0 <= i < 3 -> 0 <= j < 3 ->
      nth (Z.to_nat j) (nth (Z.to_nat i) (np.rows dm) []) 0 =
      if (j - i) mod 3 <=? 1 then 1 else 0.
Proof.
  intros w.
  apply (@default_matrix_entries counter_source 3 1 w); [lia | reflexivity | reflexivity].
Defined.

Lemma range_split (a n : Z) :
  0 <= a <= n -> range n = range a ++ map (Z.add a) (range (n - a)).
Proof.
  intros H. replace n with (a + Z.of_nat (Z.to_nat (n - a))) at 1 by lia.
  replace (n - a) with (Z.of_nat (Z.to_nat (n - a))) at 2 by lia.
  induction (Z.to_nat (n - a)) as [|m IH].
  - change (Z.of_nat 0) with 0. rewrite Z.add_0_r. cbn. now rewrite app_nil_r.
  - replace (Z.of_nat (S m)) with (Z.of_nat m + 1) by lia.
    rewrite Z.add_assoc, !range_snoc, IH, map_app by lia.
    cbn [map]. now rewrite <- app_assoc.
Qed.

Lemma filter_all {A} (p : A -> bool) (l : list A) :
  (forall x, In x l -> p x = true) -> filter p l = l.
Proof.
  induction l as [|x l IH]; intros H; [reflexivity|].
  cbn [filter]. rewrite (H x) by now left.
  f_equal. apply IH. intros y Hy. apply H. now right.
Qed.

Lemma filter_none {A} (p : A -> bool) (l : list A) :
  (forall x, In x l -> p x = false) -> filter p l = [].
Proof.
  induction l as [|x l IH]; intros H; [reflexivity|].
  cbn [filter]. rewrite (H x) by now left.
  apply IH. intros y Hy. apply H. now right.
Qed.

Lemma filter_lt_range (c m : Z) :
  0 <= m -> filter (fun j => j <? c) (range m) = range (Z.min c m).
Proof.
  intros Hm. destruct (Z.le_gt_cases c 0) as [Hc|Hc].
  - rewrite (range_nonpos (Z.min c m)) by lia.
    apply filter_none. intros x Hx. apply range_In in Hx. lia.
  - destruct (Z.le_gt_cases m c) as [Hmc|Hmc].
    + replace (Z.min c m) with m by lia.
      apply filter_all. intros x Hx. apply range_In in Hx. lia.
    + replace (Z.min c m) with c by lia.
      rewrite (range_split c m) by lia. rewrite filter_app.
      rewrite filter_all, filter_none; [now rewrite app_nil_r | |].
      * intros x Hx. apply in_map_iff in Hx. destruct Hx as [y [<- Hy]].
        apply range_In in Hy. lia.
      * intros x Hx. apply range_In in Hx. lia.
Qed.

Lemma first_position_at (i : Z) (l1 l2 : list Z) :
  ~ In i l1 ->
  getitem (np.argwhere (map (fun j => j =? i) (l1 ++ i :: l2))) 0 = Ok (len l1).
Proof.
  induction l1 as [|x l1 IH]; intros Hnot.
  - cbn [app map]. rewrite argwhere_cons, Z.eqb_refl. cbn [app].
    rewrite (getitem_ok _ 0 0); [reflexivity|].
    rewrite len_cons. pose proof (len_nonneg (map (Z.add 1)
      (np.argwhere (map (fun j => j =? i) l2)))). lia.
  - cbn [app map]. rewrite argwhere_cons.
    destruct (Z.eqb_spec x i) as [->|Hne]; [exfalso; apply Hnot; now left|].
    cbn [app]. rewrite getitem_map, IH, len_cons; [f_equal; lia|].
    intros H. apply Hnot. now right.
Qed.

(** The indices of the ones of row [i] of the sequential matrix, ascending:
    the part that wrapped around, then [i] and what follows it. *)
Lemma sequential_row_indices (n k i : Z) :
  0 <= k < n -> 0 <= i < n ->
  np.argwhere (map (fun x => x =? 1) (map (sequential_entry n k i) (range n))) =
  range (i + k + 1 - n) ++ map (Z.add i) (range (Z.min (k + 1) (n - i))).
Proof.
  intros Hk Hi. unfold np.argwhere.
  rewrite !len_map, range_length. replace (Z.max 0 n) with n by lia.
  rewrite (filter_ext_in _ (fun j => (j - i) mod n <=? k)).
  2:{ intros j Hj. apply range_In in Hj.
      rewrite map_map, (nth_range (fun x => sequential_entry n k i x =? 1)) by exact Hj.
      rewrite <- (Z2Nat.id k) at 1 by lia.
      rewrite sequential_entry_closed by lia. rewrite Z2Nat.id by lia.
      now destruct (_ <=? k). }
  rewrite (range_split i n) by lia. rewrite filter_app, filter_map_comm.
  f_equal.
  - rewrite (filter_ext_in _ (fun j => j <? i + k + 1 - n)).
    + rewrite filter_lt_range by lia. f_equal. lia.
    + intros j Hj. apply range_In in Hj.
      assert (E : (j - i) mod n = j - i + n).
      { rewrite <- (Z_mod_plus_full (j - i) 1 n).
        replace (j - i + 1 * n) with (j - i + n) by lia. apply Z.mod_small. lia. }
      rewrite E. lia.
  - f_equal.
    rewrite (filter_ext_in _ (fun o => o <? k + 1)).
    + apply filter_lt_range. lia.
    + intros o Ho. apply range_In in Ho.
      replace (i + o - i) with o by lia. rewrite Z.mod_small by lia. lia.
Qed.

Lemma wrapped_indices (n k i : Z) :
  0 <= k < n -> 0 <= i < n ->
  map (Z.add i) (range (Z.min (k + 1) (n - i))) ++ range (i + k + 1 - n) =
  map (fun o => (i + o) mod n) (range (k + 1)).
Proof.
  intros Hk Hi.
  rewrite (range_split (Z.min (k + 1) (n - i)) (k + 1)) by lia.
  rewrite map_app, map_map. f_equal.
  - apply map_ext_in. intros o Ho. apply range_In in Ho.
    symmetry. apply Z.mod_small. lia.
  - destruct (Z.le_gt_cases (k + 1) (n - i)) as [H|H].
    + rewrite !range_nonpos by lia. reflexivity.
    + replace (Z.min (k + 1) (n - i)) with (n - i) by lia.
      replace (k + 1 - (n - i)) with (i + k + 1 - n) by lia.
      rewrite <- (map_id (range (i + k + 1 - n))) at 1.
      apply map_ext_in. intros o Ho. apply range_In in Ho.
      replace (i + (n - i + o)) with (o + 1 * n) by lia.
      rewrite Z_mod_plus_full. symmetry. apply Z.mod_small. lia.
Qed.

(** On a landscape that holds the default matrix, the rolled dependency
    indices of position [i] are [i, i+1, ..., i+K], each taken modulo [N]:
    the position itself, then its [K] successors, wrapping around. *)
Theorem default_dependencies_are_wrapped_sequential
        {RS : RandomSource} (n k i : Z) (dm : np.ndarray Z) (w0 w : world) :
  0 <= k < n -> 0 <= i < n ->
  self_N (self w0) = Some n -> self_K (self w0) = Some k ->
  fst (_construct_sequential_dependency_matrix w0) = Ok dm ->
  self_dependency_matrix (self w) = Some dm ->
  rolled_dependency_indicies i w =
    (Ok (map (fun o => (i + o) mod n) (range (k + 1))), w).
Proof.
  intros Hk Hi HN HK Hdm Hw.
  rewrite (construct_sequential_run n k w0) in Hdm by (lia || assumption).
  cbn [fst] in Hdm. injection Hdm as <-.
  unfold rolled_dependency_indicies, dependency_indicies. run. rewrite Hw. run.
  rewrite (getitem_ok _ i []).
  2:{ unfold sequential_matrix, np.from_function. cbn [np.rows].
      rewrite len_map, range_length. lia. }
  run.
  rewrite (nth_range (fun i0 => map (fun j => sequential_entry n k i0 j) (range n)))
    by exact Hi.
  change (map (fun j => sequential_entry n k i j) (range n))
    with (map (sequential_entry n k i) (range n)).
  rewrite sequential_row_indices by assumption.
  assert (Hm : exists m : nat, Z.min (k + 1) (n - i) = Z.of_nat (S m)).
  { exists (Z.to_nat (Z.min (k + 1) (n - i) - 1)). lia. }
  destruct Hm as [m Hm]. rewrite Hm. rewrite range_cons. cbn [map].
  rewrite Z.add_0_r.
  rewrite first_position_at.
  2:{ intros H. apply range_In in H. lia. }
  run. rewrite roll_to_first. do 2 f_equal.
  rewrite <- wrapped_indices by assumption.
  rewrite Hm, range_cons. cbn [map]. now rewrite Z.add_0_r.
Qed.

Lemma default_dependencies_are_wrapped_sequential_witness :
  let dm := array2 [[1; 1; 0]; [0; 1; 1]; [1; 0; 1]] in
  let w0 := mk_world module_namespace 0 (mk_object (Some 3) (Some 1) None None) in
  let w := mk_world module_namespace 0
             (landscape 3 1 dm (array2 [[0; 0; 0; 0]; [0; 0; 0; 0]; [0; 0; 0; 0]]%float)) in
  rolled_dependency_indicies 2 w =
    (Ok (map (fun o => (2 + o) mod 3) (range (1 + 1))), w).
Proof.
  intros dm w0 w.
  apply (@default_dependencies_are_wrapped_sequential counter_source 3 1 2 dm w0 w);
    [lia | lia | reflexivity | reflexivity | vm_compute; reflexivity | reflexivity].
Defined.

(** ** Evaluation: what a contribution depends on *)

Lemma rotate_left_until_In (fuel : nat) (i j : Z) (l : list Z) :
  In j (rotate_left_until fuel i l) -> In j l.
Proof.
  revert l. induction fuel as [|fuel IH]; intros l H; [now destruct l|].
  destruct l as [|x l]; [exact H|]. cbn [rotate_left_until] in H.
  destruct (x =? i); [exact H|].
  apply IH in H. apply in_app_iff in H.
  destruct H as [H|[<-|[]]]; [now right | now left].
Qed.

Lemma ones_from_value (row : list Z) (j c : Z) :
  In c (ones_from j row) -> nth (Z.to_nat (c - j)) row 0 = 1.
Proof.
  revert j. induction row as [|x row IH]; intros j; [intros []|].
  cbn [ones_from]. intros H.
  assert (Hrec : In c (ones_from (j + 1) row) ->
                 nth (Z.to_nat (c - j)) (x :: row) 0 = 1).
  { intros H'. pose proof (ones_from_bounds _ _ _ H') as Hb.
    replace (Z.to_nat (c - j)) with (S (Z.to_nat (c - (j + 1)))) by lia.
    cbn [nth]. now apply IH. }
  destruct (Z.eqb_spec x 1) as [->|Hne]; [|now apply Hrec].
  destruct H as [<-|H]; [|now apply Hrec].
  now rewrite Z.sub_diag.
Qed.

(** The pattern of position [i] holds only columns at which row [i] is 1. *)
Lemma spec_pattern_In (dm : np.ndarray Z) (i j : Z) :
  In j (spec_pattern dm i) ->
  0 <= j < len (nth (Z.to_nat i) (np.rows dm) []) /\
  nth (Z.to_nat j) (nth (Z.to_nat i) (np.rows dm) []) 0 = 1.
Proof.
  unfold spec_pattern, rotate_to_front. intros H.
  apply rotate_left_until_In in H.
  pose proof (ones_from_bounds _ _ _ H) as Hb.
  apply ones_from_value in H. rewrite Z.sub_0_r in H. split; [lia | exact H].
Qed.

Lemma Forall2_refine {A B} (P Q : A -> B -> Prop) (R : A -> Prop)
      (l : list A) (m : list B) :
  (forall a b, R a -> P a b -> Q a b) ->
  Forall R l -> Forall2 P l m -> Forall2 Q l m.
Proof.
  intros H HR HP. induction HP as [|a b l m Hab _ IH]; [constructor|].
  inversion HR; subst. constructor; [now apply H | now apply IH].
Qed.

Section Dependence.

Context {RS : RandomSource}.

(** With [K = 0] every position contributes on its own: the fitness is the
    sum over the positions [i] of [fitness_mapping[i, solution[i]]],
    whatever the integer element type of the solution. *)
Theorem K0_fitness_is_sum_over_own_bits
        (n : Z) (dm : np.ndarray Z) (fm : np.ndarray float)
        (dt : np.dtype) (solution : list Z) (g : namespace) (s : rng) :
  valid_landscape n 0 dm fm ->
  len solution = n -> Forall binary solution ->
  exists contributions,
    Forall2 (fun i c => np.getitem2 fm i (nth (Z.to_nat i) solution 0) = Ok c)
            (range n) contributions /\
    calculate_fitness (np.mk_int_array dt solution)
      (mk_world g s (landscape n 0 dm fm)) =
      (Ok (fold_left PrimFloat.add contributions 0%float),
       mk_world g s (landscape n 0 dm fm)).
Proof.
  intros Hv Hl Hb.
  destruct (calculate_fitness_run n 0 dm fm dt solution Hv Hl Hb
              (holds_bits_one dt) g s)
    as [Hpat [cs [Hcs Hrun]]].
  exists cs. split; [|exact Hrun].
  eapply Forall2_refine; [|exact Hpat|exact Hcs].
  intros i c [Hlen Hhd] Hc. cbn beta in *.
  unfold spec_decimal in Hc.
  destruct (spec_pattern dm i) as [|x [|y rest]].
  - discriminate Hhd.
  - injection Hhd as ->. cbn [map] in Hc. unfold msb_first_value in Hc.
    cbn [fold_left] in Hc. now rewrite Z.mul_0_r, Z.add_0_l in Hc.
  - rewrite !len_cons in Hlen. pose proof (len_nonneg rest). lia.
Qed.

(** Locality.  The contribution of position [i] reads the solution at the
    columns where row [i] of the dependency matrix is 1 and nowhere else:
    two solutions of one element type that agree there get the same outcome
    for the index and for the contribution. *)
Theorem contribution_reads_dependencies_only
        (n k : Z) (dm : np.ndarray Z) (fm : np.ndarray float) (dt : np.dtype)
        (solution solution' : list Z) (g : namespace) (s : rng) (i : Z) :
  valid_landscape n k dm fm ->
  len solution = n -> Forall binary solution ->
  len solution' = n -> Forall binary solution' ->
  0 <= i < n ->
  (forall j, 0 <= j < n ->
     nth (Z.to_nat j) (nth (Z.to_nat i) (np.rows dm) []) 0 = 1 ->
     nth (Z.to_nat j) solution 0 = nth (Z.to_nat j) solution' 0) ->
  let w := mk_world g s (landscape n k dm fm) in
  row_decimal (np.mk_int_array dt solution) i w =
  row_decimal (np.mk_int_array dt solution') i w /\
  forall fitness,
    add_contribution (np.mk_int_array dt solution) fitness i w =
    add_contribution (np.mk_int_array dt solution') fitness i w.
Proof.
  intros Hv Hl Hb Hl' Hb' Hi Hagree w.
  assert (Hrow : row_decimal (np.mk_int_array dt solution) i w =
                 row_decimal (np.mk_int_array dt solution') i w).
  { unfold w.
    rewrite (row_decimal_outcome n k dm fm dt solution Hv Hl g s i Hi).
    rewrite (row_decimal_outcome n k dm fm dt solution' Hv Hl' g s i Hi).
    do 3 f_equal. apply map_ext_in. intros j Hj.
    apply spec_pattern_In in Hj. destruct Hj as [Hj Hone].
    destruct Hv as [Hk Hdm _ _].
    destruct (valid_row n k dm i Hk Hdm Hi) as [_ [Hrl _]].
    apply Hagree; [lia | exact Hone]. }
  split; [exact Hrow|]. intros fitness.
  unfold add_contribution, bind. now rewrite Hrow.
Qed.

End Dependence.

Lemma K0_fitness_is_sum_over_own_bits_witness :
  let dm := array2 [[1; 0; 0; 0]; [0; 1; 0; 0]; [0; 0; 1; 0]; [0; 0; 0; 1]] in
  let fm := array2 [[0; 1]; [1; 0]; [0; 1]; [1; 0]]%float in
  exists contributions,
    Forall2 (fun i c => np.getitem2 fm i (nth (Z.to_nat i) [1; 0; 1; 0] 0) = Ok c)
            (range 4) contributions /\
    calculate_fitness (np.mk_int_array np.int8 [1; 0; 1; 0])
      (mk_world module_namespace 0 (landscape 4 0 dm fm)) =
      (Ok (fold_left PrimFloat.add contributions 0%float),
       mk_world module_namespace 0 (landscape 4 0 dm fm)).
Proof.
  intros dm fm.
  apply (@K0_fitness_is_sum_over_own_bits counter_source 4 dm fm np.int8
           [1; 0; 1; 0] module_namespace 0);
    [exact scenario_4_0_valid | reflexivity | solve_bits].
Defined.

Lemma contribution_reads_dependencies_only_witness :
  let dm := array2 [[1; 0; 0; 0]; [0; 1; 0; 0]; [0; 0; 1; 0]; [0; 0; 0; 1]] in
  let fm := array2 [[0; 1]; [1; 0]; [0; 1]; [1; 0]]%float in
  let w := mk_world module_namespace 0 (landscape 4 0 dm fm) in
  row_decimal (np.mk_int_array np.int64 [1; 0; 1; 0]) 2 w =
  row_decimal (np.mk_int_array np.int64 [0; 1; 1; 1]) 2 w /\
  forall fitness,
    add_contribution (np.mk_int_array np.int64 [1; 0; 1; 0]) fitness 2 w =
    add_contribution (np.mk_int_array np.int64 [0; 1; 1; 1]) fitness 2 w.
Proof.
  intros dm fm w.
  apply (@contribution_reads_dependencies_only counter_source 4 0 dm fm np.int64
           [1; 0; 1; 0] [0; 1; 1; 1] module_namespace 0 2);
    [exact scenario_4_0_valid | reflexivity | solve_bits | reflexivity | solve_bits
    | lia |].
  intros j Hj.
  assert (E : j = 0 \/ j = 1 \/ j = 2 \/ j = 3) by lia.
  destruct E as [-> | [-> | [-> | ->]]]; cbn; intros H;
    first [discriminate H | reflexivity].
Defined.

(** ** Evaluation: the length of the solution *)

Lemma roll_In {A} (a : list A) (shift : Z) (x : A) :
  In x (np.roll a shift) -> In x a.
Proof.
  unfold np.roll. destruct a as [|y a]; [intros []|].
  set (l := y :: a). set (m := Z.to_nat (len l - shift mod len l)).
  intros H. rewrite <- (firstn_skipn m l). apply in_app_iff.
  apply in_app_iff in H. tauto.
Qed.

Lemma getitem_raises {A} (l : list A) (i : Z) (e : exn) :
  getitem l i = Raise e -> e = IndexError.
Proof.
  unfold getitem. destruct (_ && _); [|now intros [= <-]].
  destruct (nth_error l _); [discriminate | now intros [= <-]].
Qed.

Lemma getitem_beyond {A} (l : list A) (i : Z) :
  len l <= i -> getitem l i = Raise IndexError.
Proof.
  intros H. unfold getitem. pose proof (len_nonneg l).
  replace (i <? 0) with false by lia.
  now replace ((0 <=? i) && (i <? len l)) with false by lia.
Qed.

Lemma take_raises {A} (a : list A) (indices : list Z) (e : exn) :
  np.take a indices = Raise e -> e = IndexError.
Proof.
  induction indices as [|i indices IH]; [discriminate|].
  cbn [np.take]. destruct (getitem a i) as [x|e'] eqn:E.
  - destruct (np.take a indices) as [xs|e'']; [discriminate|].
    intros [= <-]. now apply IH.
  - intros [= <-]. now apply getitem_raises in E.
Qed.

Lemma take_firstn (solution indices : list Z) (n : Z) :
  Forall (fun j => 0 <= j < n) indices -> n <= len solution ->
  np.take solution indices = np.take (firstn (Z.to_nat n) solution) indices.
Proof.
  intros Hidx Hn.
  assert (Hlen : len (firstn (Z.to_nat n) solution) = Z.max 0 n).
  { unfold len in *. rewrite length_firstn. lia. }
  rewrite !take_ok.
  - f_equal. apply map_ext_in. intros j Hj.
    rewrite Forall_forall in Hidx. specialize (Hidx j Hj).
    rewrite <- (firstn_skipn (Z.to_nat n) solution) at 1.
    apply app_nth1. unfold len in Hlen. lia.
  - eapply Forall_impl; [|exact Hidx]. intros j Hj. cbn beta in *. lia.
  - eapply Forall_impl; [|exact Hidx]. intros j Hj. cbn beta in *. lia.
Qed.

Section SolutionLength.

Context {RS : RandomSource}.

Lemma leaves_state_ret {A} (a : A) : leaves_state (ret a).
Proof. intros w. reflexivity. Qed.

Lemma leaves_state_lift {A} (r : result A) : leaves_state (lift r).
Proof. intros w. reflexivity. Qed.

Lemma add_contribution_leaves_state
      (solution : np.int_array) (fitness : float) (i : Z) :
  leaves_state (add_contribution solution fitness i).
Proof.
  unfold add_contribution, row_decimal, rolled_dependency_indicies,
    dependency_indicies, get_dependency_matrix, get_fitness_mapping.
  repeat first
    [ apply leaves_state_ret
    | apply leaves_state_lift
    | apply leaves_state_getattr
    | apply leaves_state_bind; [|intros ?] ].
Qed.

(** A loop whose bodies agree on a state they all leave unchanged. *)
Lemma for_each_agree {A B} (body body' : B -> A -> M B) (w : world) (l : list A) :
  (forall acc x, leaves_state (body' acc x)) ->
  (forall acc x, In x l -> body acc x w = body' acc x w) ->
  forall acc, for_each l body acc w = for_each l body' acc w.
Proof.
  intros Hframe. induction l as [|x l IH]; intros Hb acc; [reflexivity|].
  cbn [for_each]. unfold bind. rewrite (Hb acc x) by now left.
  pose proof (Hframe acc x w) as Hs.
  destruct (body' acc x w) as [[v|e] w1]; cbn [snd] in Hs; subst w1;
    [|reflexivity].
  apply IH. intros acc' y Hy. apply Hb. now right.
Qed.

(** The rolled indices of a row are columns of the matrix. *)
Lemma rolled_indices_are_columns
      (n i : Z) (dm : np.ndarray Z) (w w' : world) (rolled : list Z) :
  np.wf dm -> snd (np.shape dm) = n ->
  self_dependency_matrix (self w) = Some dm ->
  rolled_dependency_indicies i w = (Ok rolled, w') ->
  Forall (fun j => 0 <= j < n) rolled.
Proof.
  intros [_ [_ Hrows]] Hn Hdm.
  unfold rolled_dependency_indicies, dependency_indicies. run. rewrite Hdm. run.
  destruct (getitem (np.rows dm) i) as [row|e] eqn:Erow; [|discriminate]. run.
  destruct (getitem (np.argwhere _) 0) as [position|e]; [|discriminate]. run.
  intros [= <- _]. apply getitem_In in Erow.
  rewrite Forall_forall in Hrows. specialize (Hrows row Erow). rewrite Hn in Hrows.
  apply Forall_forall. intros j Hj. apply roll_In in Hj.
  rewrite argwhere_ones in Hj. apply ones_from_bounds in Hj. lia.
Qed.

(** [calculate_fitness] reads no more of the solution than the matrix has
    columns: the entries of a solution beyond the first [N] are ignored. *)
Theorem entries_beyond_N_are_ignored
        (n : Z) (dm : np.ndarray Z) (dt : np.dtype) (solution : list Z) (w : world) :
  np.wf dm -> snd (np.shape dm) = n ->
  self_dependency_matrix (self w) = Some dm ->
  n <= len solution ->
  calculate_fitness (np.mk_int_array dt solution) w =
  calculate_fitness (np.mk_int_array dt (firstn (Z.to_nat n) solution)) w.
Proof.
  intros Hwf Hn Hdm Hlen. unfold calculate_fitness, bind.
  destruct (get_N w) as [[n0|e] w1] eqn:EN; [|reflexivity].
  assert (w1 = w) as ->.
  { pose proof (leaves_state_getattr "N" self_N w) as H.
    unfold get_N in EN. rewrite EN in H. exact H. }
  apply for_each_agree; [intros; apply add_contribution_leaves_state|].
  intros fitness i _. unfold add_contribution, row_decimal. unfold bind.
  destruct (rolled_dependency_indicies i w) as [[rolled|e] w1] eqn:Er;
    [|reflexivity].
  pose proof (rolled_indices_are_columns n i dm w w1 rolled Hwf Hn Hdm Er) as Hcols.
  unfold lift, np.take_array. cbn [np.items np.dtype_of].
  now rewrite (take_firstn solution rolled n Hcols Hlen).
Qed.

End SolutionLength.

Lemma entries_beyond_N_are_ignored_witness :
  let dm := array2 [[1; 1]; [1; 1]] in
  let w := mk_world module_namespace 0
             (landscape 2 1 dm (array2 [[0; 1; 2; 3]; [4; 5; 6; 7]]%float)) in
  calculate_fitness (np.mk_int_array np.int64 [1; 0; 1; 1]) w =
  calculate_fitness (np.mk_int_array np.int64 (firstn (Z.to_nat 2) [1; 0; 1; 1])) w.
Proof.
  intros dm w.
  apply (@entries_beyond_N_are_ignored counter_source 2 dm np.int64 [1; 0; 1; 1] w).
  - unfold np.wf. cbn. repeat split; [lia | solve_bits].
  - reflexivity.
  - reflexivity.
  - vm_compute. discriminate.
Defined.

Section ShortSolution.

Context {RS : RandomSource}.

Variables (n k : Z) (dm : np.ndarray Z) (fm : np.ndarray float).
Variable dt : np.dtype.
Variable solution : list Z.
Variables (g : namespace) (s : rng).

Hypothesis Hvalid : valid_landscape n k dm fm.
Hypothesis Hbits : Forall binary solution.
Hypothesis Hshort : len solution < n.
Hypothesis Hholds : holds_bits dt (k + 1).

Local Abbreviation W := (mk_world g s (landscape n k dm fm)).
Local Abbreviation typed := (np.mk_int_array dt solution).

(** A row of the loop either adds its contribution or raises
    [IndexError]; the state stays as it was. *)
Lemma short_row_outcome (fitness : float) (i : Z) :
  0 <= i < n ->
  (exists v, add_contribution typed fitness i W = (Ok v, W)) \/
  add_contribution typed fitness i W = (Raise IndexError, W).
Proof.
  intros Hi.
  destruct (row_pattern_run n k dm fm Hvalid g s i Hi) as [Hr [[Hplen _] _]].
  unfold add_contribution, row_decimal, bind. rewrite Hr. unfold lift, np.take_array.
  cbn [np.items np.dtype_of].
  destruct (np.take solution (spec_pattern dm i)) as [sub|e] eqn:Et.
  - left. destruct (take_inv _ _ _ Et) as [Hlen Hin].
    assert (Hsub : Forall binary sub).
    { eapply Forall_impl; [|exact Hin].
      intros x Hx. rewrite Forall_forall in Hbits. now apply Hbits. }
    rewrite binary_to_decimal_bits; [|exact Hsub | now rewrite Hlen, Hplen].
    pose proof (msb_first_value_bounds sub Hsub) as Hbound.
    rewrite Hlen, Hplen in Hbound.
    destruct Hvalid as [_ _ Hfwf Hfs].
    destruct (getitem2_ok fm n (2 ^ (k + 1)) i _ Hfwf Hfs Hi Hbound) as [c Hc].
    run. rewrite Hc. eexists. reflexivity.
  - right. apply take_raises in Et. now subst e.
Qed.

(** The row of the first missing position raises. *)
Lemma short_row_raises (fitness : float) :
  add_contribution typed fitness (len solution) W = (Raise IndexError, W).
Proof.
  pose proof (len_nonneg solution) as Hn.
  destruct (row_pattern_run n k dm fm Hvalid g s (len solution) ltac:(lia))
    as [Hr [[_ Hhd] _]].
  unfold add_contribution, row_decimal, bind. rewrite Hr. unfold lift, np.take_array.
  cbn [np.items np.dtype_of].
  destruct (spec_pattern dm (len solution)) as [|x rest]; [discriminate|].
  injection Hhd as ->. cbn [np.take].
  now rewrite getitem_beyond by lia.
Qed.

Lemma short_loop (positions : list Z) :
  Forall (fun i => 0 <= i < n) positions -> In (len solution) positions ->
  forall fitness,
    for_each positions (add_contribution typed) fitness W =
      (Raise IndexError, W).
Proof.
  induction 1 as [|i positions Hi _ IH]; intros Hin fitness; [destruct Hin|].
  cbn [for_each]. unfold bind.
  destruct (Z.eq_dec i (len solution)) as [->|Hne].
  - now rewrite short_row_raises.
  - destruct (short_row_outcome fitness i Hi) as [[v Hv]|Hr]; [|now rewrite Hr].
    rewrite Hv. apply IH. destruct Hin as [Hin|Hin]; [contradiction | exact Hin].
Qed.

End ShortSolution.

(** On a valid landscape a binary solution with fewer than [N] entries,
    held in an array whose element type holds [2^K], makes
    [calculate_fitness] raise [IndexError], and the state is left as it
    was. *)
Theorem short_solution_raises_IndexError
        {RS : RandomSource} (n k : Z) (dm : np.ndarray Z) (fm : np.ndarray float)
        (dt : np.dtype) (solution : list Z) (g : namespace) (s : rng) :
  valid_landscape n k dm fm ->
  Forall binary solution -> len solution < n ->
  holds_bits dt (k + 1) ->
  calculate_fitness (np.mk_int_array dt solution)
    (mk_world g s (landscape n k dm fm)) =
    (Raise IndexError, mk_world g s (landscape n k dm fm)).
Proof.
  intros Hv Hb Hs Hh. unfold calculate_fitness. run.
  apply (short_loop n k dm fm dt solution g s Hv Hb Hs Hh).
  - apply Forall_forall. intros i Hi. now apply range_In.
  - apply range_In. pose proof (len_nonneg solution). lia.
Qed.

Lemma short_solution_raises_IndexError_witness :
  let dm := array2 [[1; 0; 0; 0]; [0; 1; 0; 0]; [0; 0; 1; 0]; [0; 0; 0; 1]] in
  let fm := array2 [[0; 1]; [1; 0]; [0; 1]; [1; 0]]%float in
  calculate_fitness (np.mk_int_array np.int8 [1; 0; 1])
    (mk_world module_namespace 0 (landscape 4 0 dm fm)) =
    (Raise IndexError, mk_world module_namespace 0 (landscape 4 0 dm fm)).
Proof.
  intros dm fm.
  apply (@short_solution_raises_IndexError counter_source 4 0 dm fm np.int8 [1; 0; 1]
           module_namespace 0);
    [exact scenario_4_0_valid | solve_bits | vm_compute; reflexivity
    | apply holds_bits_one].
Defined.

(** On a valid landscape, a solution of length [N] held in an array whose
    element type does not hold [2^K] is not evaluated: the conversion of
    the first row multiplies a scalar of that type by a Python integer that
    is out of its bounds, [calculate_fitness] raises [OverflowError], and
    the state is left as it was. *)
Theorem narrow_element_type_raises_OverflowError
        {RS : RandomSource} (n k : Z) (dm : np.ndarray Z) (fm : np.ndarray float)
        (dt : np.dtype) (solution : list Z) (g : namespace) (s : rng) :
  valid_landscape n k dm fm -> len solution = n ->
  ~ holds_bits dt (k + 1) ->
  calculate_fitness (np.mk_int_array dt solution)
    (mk_world g s (landscape n k dm fm)) =
    (Raise OverflowError, mk_world g s (landscape n k dm fm)).
Proof. apply calculate_fitness_overflow. Qed.

Lemma narrow_element_type_raises_OverflowError_witness :
  let dm := array2 (repeat (repeat 1 8%nat) 8%nat) in
  let fm := np.from_function 8 256 (fun _ _ => 30%float) in
  calculate_fitness (np.mk_int_array np.int8 [0; 1; 1; 0; 1; 0; 0; 1])
    (mk_world module_namespace 0 (landscape 8 7 dm fm)) =
    (Raise OverflowError, mk_world module_namespace 0 (landscape 8 7 dm fm)).
Proof.
  intros dm fm.
  apply (@narrow_element_type_raises_OverflowError counter_source 8 7 dm fm np.int8
           [0; 1; 1; 0; 1; 0; 0; 1] module_namespace 0);
    [exact scenario_8_7_valid | reflexivity |].
  unfold holds_bits. vm_compute. intros H. apply H. reflexivity.
Defined.

(** ** Construction, sampling and evaluation together *)

Section Together.

Context {RS : RandomSource}.

Lemma uniform_wf (low high : float) (r c : Z) (s : rng) :
  0 <= r -> 0 <= c ->
  exists a s', np.random.uniform low high (r, PyInt c) s = (Ok a, s') /\
               np.wf a /\ np.shape a = (r, c).
Proof.
  intros Hr Hc. unfold np.random.uniform. cbn [fst snd].
  replace ((r <? 0) || (c <? 0)) with false by lia.
  pose proof (draw_list_length
                (draw_list (draw_uniform low high) (Z.to_nat c)) (Z.to_nat r) s) as Hlen.
  pose proof (draw_list_Forall
                (fun row : list float => len row = c)
                (draw_list (draw_uniform low high) (Z.to_nat c))
                (fun s0 => eq_trans (f_equal Z.of_nat (draw_list_length _ _ s0))
                                    (Z2Nat.id c Hc))
                (Z.to_nat r) s) as Hrows.
  destruct (draw_list _ _ s) as [rs s']. cbn [fst] in *.
  exists (np.mk_ndarray (r, c) rs), s'. split; [reflexivity|].
  split; [|reflexivity].
  unfold np.wf. cbn [np.shape np.rows fst snd].
  split; [unfold len; lia|]. split; [exact Hc | exact Hrows].
Qed.

(** A landscape constructed from [N] and [0 <= K < N] alone is valid: the
    default matrix satisfies the invariants and the drawn fitness mapping
    has shape [(N, 2^(K+1))].  On it [calculate_fitness] returns a value for
    every binary solution of length [N] held in an array whose element type
    holds [2^K], and raises [OverflowError] for every one held in an array
    whose element type does not. *)
Theorem default_landscape_is_valid_and_evaluates
        (g : namespace) (n k : Z) (s : rng) :
  0 <= k < n ->
  exists dm fm s',
    construct g (Some n) (Some k) None None s = (Ok (landscape n k dm fm), s') /\
    valid_landscape n k dm fm /\
    forall dt solution g' s'',
      len solution = n -> Forall binary solution ->
      (holds_bits dt (k + 1) ->
       exists v,
         calculate_fitness (np.mk_int_array dt solution)
           (mk_world g' s'' (landscape n k dm fm)) =
           (Ok v, mk_world g' s'' (landscape n k dm fm))) /\
      (~ holds_bits dt (k + 1) ->
       calculate_fitness (np.mk_int_array dt solution)
         (mk_world g' s'' (landscape n k dm fm)) =
         (Raise OverflowError, mk_world g' s'' (landscape n k dm fm))).
Proof.
  intros Hk.
  destruct (uniform_wf (-1) 1 n (2 ^ (k + 1)) s) as [fm [s' [E [Hwf Hs]]]];
    [lia | apply Z.pow_nonneg; lia |].
  assert (Hv : valid_landscape n k (sequential_matrix n k) fm).
  { constructor; [exact Hk | now apply sequential_matrix_valid | exact Hwf | exact Hs]. }
  exists (sequential_matrix n k), fm, s'. split; [|split; [exact Hv|]].
  - unfold construct, __init__. run.
    replace (k >=? n) with false by lia. run.
    rewrite (construct_sequential_run n k) by (cbn; (lia || reflexivity)).
    run. unfold py_pow. replace (0 <=? k + 1) with true by lia.
    rewrite E. reflexivity.
  - intros dt solution g' s'' Hl Hb. split.
    + intros Hh.
      destruct (calculate_fitness_run n k _ fm dt solution Hv Hl Hb Hh g' s'')
        as [_ [cs [_ Hrun]]].
      eexists. exact Hrun.
    + intros Hno. now apply calculate_fitness_overflow.
Qed.

(** Every row of the array returned by [generate_solutions] is a solution
    that [calculate_fitness] accepts: on a valid landscape whose fitness
    mapping NumPy can hold (the length of its rows is a signed 64-bit
    number), the evaluation of each generated row, an array of the default
    integer type, returns a value. *)
Theorem generated_solutions_evaluate
        (n k : Z) (dm : np.ndarray Z) (fm : np.ndarray float)
        (g : namespace) (s : rng) (num : Z) :
  valid_landscape n k dm fm -> 0 <= num ->
  snd (np.shape fm) <= np.dtype_max np.int64 ->
  exists a s',
    generate_solutions (Some num) (mk_world g s (landscape n k dm fm)) =
      (Ok a, mk_world g s' (landscape n k dm fm)) /\
    len (np.rows a) = num /\
    forall solution, In solution (np.rows a) ->
      exists v,
        calculate_fitness (np.mk_int_array np.int64 solution)
          (mk_world g s' (landscape n k dm fm)) =
          (Ok v, mk_world g s' (landscape n k dm fm)).
Proof.
  intros Hv Hnum Hdim. pose proof Hv as [Hk _ _ Hfs].
  assert (Hh : holds_bits np.int64 (k + 1)).
  { unfold holds_bits. rewrite Hfs in Hdim. cbn [snd] in Hdim.
    assert (2 ^ (k + 1 - 1) <= 2 ^ (k + 1)) by (apply Z.pow_le_mono_r; lia).
    lia. }
  destruct (randint_2_ok num n s Hnum ltac:(lia)) as [a [E [[Hlen [_ Hrows]] [Hs Hb]]]].
  unfold generate_solutions. run.
  destruct (np.random.randint 2 (num, n) s) as [r s'] eqn:Er.
  cbn [fst] in E. subst r. exists a, s'. split; [reflexivity|].
  rewrite Hs in *. cbn [fst snd] in *. split; [exact Hlen|].
  intros solution Hin. rewrite Forall_forall in Hrows, Hb.
  destruct (calculate_fitness_run n k dm fm np.int64 solution Hv (Hrows _ Hin)
              (Hb _ Hin) Hh g s')
    as [_ [cs [_ Hrun]]].
  eexists. exact Hrun.
Qed.


(** The arguments are checked in the order [N], [K], [K < N], before any
    matrix is looked at and before anything is drawn: a missing [N], a
    missing [K] and a [K >= N] end in their own [ValueError] whatever the
    other arguments, and leave the random source untouched. *)
Theorem construct_argument_errors
        (g : namespace) (N K : option Z) (dm : option array_arg)
        (fm : option (np.ndarray float)) (s : rng) :
  (N = None ->
   construct g N K dm fm s = (Raise (ValueError N_must_be_provided), s)) /\
  (N <> None -> K = None ->
   construct g N K dm fm s = (Raise (ValueError K_must_be_provided), s)) /\
  (forall n k, N = Some n -> K = Some k -> n <= k ->
   construct g N K dm fm s = (Raise (ValueError K_must_be_less_than_N), s)).
Proof.
  split; [intros ->; reflexivity|]. split.
  - intros HN ->. destruct N as [n|]; [reflexivity | contradiction].
  - intros n k -> -> H. now apply construct_rejects_K_ge_N.
Qed.

End Together.

Lemma default_landscape_is_valid_and_evaluates_witness :
  exists dm fm s',
    construct module_namespace (Some 3) (Some 1) None None 0 =
      (Ok (landscape 3 1 dm fm), s') /\
    valid_landscape 3 1 dm fm /\
    forall dt solution g' s'',
      len solution = 3 -> Forall binary solution ->
      (holds_bits dt (1 + 1) ->
       exists v,
         calculate_fitness (np.mk_int_array dt solution)
           (mk_world g' s'' (landscape 3 1 dm fm)) =
           (Ok v, mk_world g' s'' (landscape 3 1 dm fm))) /\
      (~ holds_bits dt (1 + 1) ->
       calculate_fitness (np.mk_int_array dt solution)
         (mk_world g' s'' (landscape 3 1 dm fm)) =
         (Raise OverflowError, mk_world g' s'' (landscape 3 1 dm fm))).
Proof.
  apply (@default_landscape_is_valid_and_evaluates counter_source module_namespace 3 1 0).
  lia.
Defined.

Lemma generated_solutions_evaluate_witness :
  let dm := array2 [[1; 0; 0; 0]; [0; 1; 0; 0]; [0; 0; 1; 0]; [0; 0; 0; 1]] in
  let fm := array2 [[0; 1]; [1; 0]; [0; 1]; [1; 0]]%float in
  exists a s',
    generate_solutions (Some 3) (mk_world module_namespace 0 (landscape 4 0 dm fm)) =
      (Ok a, mk_world module_namespace s' (landscape 4 0 dm fm)) /\
    len (np.rows a) = 3 /\
    forall solution, In solution (np.rows a) ->
      exists v,
        calculate_fitness (np.mk_int_array np.int64 solution)
          (mk_world module_namespace s' (landscape 4 0 dm fm)) =
          (Ok v, mk_world module_namespace s' (landscape 4 0 dm fm)).
Proof.
  intros dm fm.
  apply (@generated_solutions_evaluate counter_source 4 0 dm fm module_namespace 0 3);
    [exact scenario_4_0_valid | lia | vm_compute; discriminate].
Defined.


Lemma construct_argument_errors_witness :
  construct module_namespace (Some 2) (Some 5) None None 0 =
    (Raise (ValueError K_must_be_less_than_N), 0).
Proof.
  apply (proj2 (proj2 (@construct_argument_errors counter_source module_namespace
                         (Some 2) (Some 5) None None 0)) 2 5);
    [reflexivity | reflexivity | lia].
Defined.

(** ** Inputs that are not checked *)

Lemma getitem_minus_one {A} (l : list A) :
  len l = 2 -> getitem l (-1) = getitem l 1.
Proof. intros H. unfold getitem. rewrite H. reflexivity. Qed.

Section Unchecked.

Context {RS : RandomSource}.

Lemma zero_one_in_range (dt : np.dtype) (x : Z) :
  x = 0 \/ x = 1 -> np.in_range dt x = true.
Proof. intros [-> | ->]; destruct dt; reflexivity. Qed.

(** The solution is not validated, and a negative index counts from the end
    of a row of the fitness mapping: with [K = 0], an entry [-1] of the
    solution (an array of a signed type, then, since its entries are within
    the bounds of its type) is read as a 1, silently. *)
Theorem K0_minus_one_is_read_as_one
        (n : Z) (dm : np.ndarray Z) (fm : np.ndarray float)
        (dt : np.dtype) (solution : list Z) (g : namespace) (s : rng) :
  valid_landscape n 0 dm fm ->
  np.in_bounds (np.mk_int_array dt solution) ->
  len solution = n ->
  Forall (fun x => x = 0 \/ x = 1 \/ x = -1) solution ->
  calculate_fitness (np.mk_int_array dt solution)
    (mk_world g s (landscape n 0 dm fm)) =
  calculate_fitness (np.mk_int_array dt (map Z.abs solution))
    (mk_world g s (landscape n 0 dm fm)).
Proof.
  intros Hv Hty Hl Hsol. unfold calculate_fitness. run.
  apply for_each_agree; [intros; apply add_contribution_leaves_state|].
  intros fitness i Hi. apply range_In in Hi.
  destruct (row_pattern_run n 0 dm fm Hv g s i Hi) as [Hr [[Hlen Hhd] _]].
  destruct (spec_pattern dm i) as [|x [|y rest]];
    [discriminate Hhd | | rewrite !len_cons in Hlen; pose proof (len_nonneg rest); lia].
  injection Hhd as ->.
  unfold add_contribution, row_decimal. unfold bind. rewrite Hr.
  unfold lift, np.take_array. cbn [np.items np.dtype_of np.take].
  rewrite (getitem_ok solution i 0) by lia.
  rewrite (getitem_ok (map Z.abs solution) i 0) by (rewrite len_map; lia).
  replace (nth (Z.to_nat i) (map Z.abs solution) 0)
    with (Z.abs (nth (Z.to_nat i) solution 0))
    by (symmetry; exact (map_nth Z.abs solution 0 (Z.to_nat i))).
  rewrite !binary_to_decimal_fits by apply holds_bits_one.
  rewrite !msb_first_value_cons. change (msb_first_value []) with 0.
  change (2 ^ len []) with 1. rewrite !Z.mul_1_r, !Z.add_0_r.
  assert (Hin : In (nth (Z.to_nat i) solution 0) solution).
  { apply nth_In. unfold len in Hl. lia. }
  assert (Hx : nth (Z.to_nat i) solution 0 = 0 \/ nth (Z.to_nat i) solution 0 = 1 \/
               nth (Z.to_nat i) solution 0 = -1).
  { rewrite Forall_forall in Hsol. now apply Hsol. }
  assert (Hrange : np.in_range dt (nth (Z.to_nat i) solution 0) = true).
  { unfold np.in_bounds in Hty. cbn [np.items np.dtype_of] in Hty.
    rewrite Forall_forall in Hty. now apply Hty. }
  rewrite (wrap_in_range dt (nth (Z.to_nat i) solution 0))
    by (now apply in_range_spec).
  rewrite (wrap_in_range dt (Z.abs (nth (Z.to_nat i) solution 0)))
    by (apply in_range_spec, zero_one_in_range; lia).
  destruct Hx as [-> | [-> | ->]]; try reflexivity.
  run. unfold np.getitem2.
  destruct Hv as [_ _ [Hflen [_ Hfrows]] Hfs]. rewrite Hfs in *. cbn [fst snd] in *.
  rewrite (getitem_ok (np.rows fm) i []) by lia.
  rewrite getitem_minus_one; [reflexivity|].
  rewrite Forall_forall in Hfrows. apply Hfrows. apply nth_In.
  unfold len in Hflen. lia.
Qed.

(** A negative [N] is refused in every case, though no test of the
    constructor names it: the construction ends in a [ValueError], raised by
    the tests on [K], by the shape test of the validation or by NumPy when
    the default matrix is built. *)
Theorem negative_N_never_constructs
        (g : namespace) (n : Z) (K : option Z) (dm : option array_arg)
        (fm : option (np.ndarray float)) (s : rng) :
  n < 0 ->
  match dm with Some a => len (np.rows (astype_int a)) = fst (np.shape (astype_int a))
              | None => True end ->
  is_ValueError (fst (construct g (Some n) K dm fm s)).
Proof.
  intros Hn Hdm. unfold construct, __init__, _check_dependency_matrix,
    _construct_sequential_dependency_matrix.
  destruct K as [k|]; [|eexists; reflexivity].
  run. destruct (k >=? n); [eexists; reflexivity|]. run.
  destruct dm as [a|]; run.
  - replace (np.shape_eqb (np.shape (astype_int a)) (n, n)) with false.
    + eexists; reflexivity.
    + symmetry. apply not_true_is_false. intros H. apply shape_eqb_eq in H.
      rewrite H in Hdm. cbn [fst] in Hdm.
      pose proof (len_nonneg (np.rows (astype_int a))). lia.
  - unfold np.identity, np.eye. replace (n <? 0) with true by lia.
    eexists; reflexivity.
Qed.

End Unchecked.

Lemma K0_minus_one_is_read_as_one_witness :
  let dm := array2 [[1; 0; 0; 0]; [0; 1; 0; 0]; [0; 0; 1; 0]; [0; 0; 0; 1]] in
  let fm := array2 [[0; 1]; [1; 0]; [0; 1]; [1; 0]]%float in
  calculate_fitness (np.mk_int_array np.int64 [-1; 0; 1; -1])
    (mk_world module_namespace 0 (landscape 4 0 dm fm)) =
  calculate_fitness (np.mk_int_array np.int64 (map Z.abs [-1; 0; 1; -1]))
    (mk_world module_namespace 0 (landscape 4 0 dm fm)).
Proof.
  intros dm fm.
  apply (@K0_minus_one_is_read_as_one counter_source 4 dm fm np.int64 [-1; 0; 1; -1]
           module_namespace 0);
    [exact scenario_4_0_valid | | reflexivity |].
  - unfold np.in_bounds.
    repeat first [apply Forall_nil | apply Forall_cons]; reflexivity.
  - repeat first [apply Forall_nil | apply Forall_cons]; lia.
Defined.

Lemma negative_N_never_constructs_witness :
  is_ValueError
    (fst (construct module_namespace (Some (-1)) (Some (-2)) None None 0)).
Proof.
  apply (@negative_N_never_constructs counter_source module_namespace (-1)
           (Some (-2)) None None 0); [lia | exact I].
Defined.
